(** * Schrodinger solvers (FEM and shooting): model of [src/fem.py],
      [src/tools.py] and [src/shooting.py].

    Floating-point numbers are idealised: a finite float is an exact
    rational, or an exact real in [normalise], which takes a square root.
    The IEEE values [inf], [-inf] and [nan] are kept apart from the finite
    ones as [NonFinite], because the code divides by grid spacings that may
    be zero. *)

From Stdlib Require Import ZArith QArith Qabs Reals String List Lia Psatz.
From stdpp Require Import base option list gmap.

Local Open Scope Z_scope.

(** ** Python exceptions *)

(** An exception is identified by its class name and carries a message.
    Exceptions raised from inside numpy or scipy keep the class they have
    there; their message is not modelled (empty). *)
Record exception : Type := Exception { exc_class : string; exc_msg : string }.

Definition ValueError (msg : string) : exception := Exception "ValueError" msg.
Definition IndexError (msg : string) : exception := Exception "IndexError" msg.
Definition NotImplementedError (msg : string) : exception :=
  Exception "NotImplementedError" msg.

(** The outcome of a call: an exception propagates ([inl]) or a value is
    returned ([inr]). *)
Definition result (A : Type) : Type := (exception + A)%type.

(** ** Floating-point values *)

Inductive number (A : Type) : Type :=
| Fin (a : A)       (* a finite value *)
| NonFinite.        (* inf, -inf or nan *)
Arguments Fin {A} a.
Arguments NonFinite {A}.

Definition is_finite {A} (v : number A) : bool :=
  match v with Fin _ => true | NonFinite => false end.

Module Tools.

(** ** [time_it] *)

(** What a decorated function can touch besides its arguments: the
    performance counter and the standard output.  [readings k] is the value
    of the [k]-th call of [time.perf_counter()]. *)
Inductive line : Type :=
| Took (name : string) (total_time : Q).   (* "Function {name} took {total_time:.4f}." *)

Record world : Type :=
  World { readings : nat -> Q; calls : nat; stdout : list line }.

Definition io (A : Type) : Type := world -> world * result A.

Definition io_ret {A} (a : A) : io A := fun w => (w, inr a).

Definition io_raise {A} (e : exception) : io A := fun w => (w, inl e).

Definition io_bind {A B} (c : io A) (k : A -> io B) : io B :=
  fun w =>
    match c w with
    | (w', inl e) => (w', inl e)
    | (w', inr a) => k a w'
    end.

Definition perf_counter : io Q :=
  fun w => (World (readings w) (S (calls w)) (stdout w), inr (readings w (calls w))).

Definition print (l : line) : io unit :=
  fun w => (World (readings w) (calls w) (stdout w ++ [l]), inr tt).

(** [time_it(func)], applied to the arguments [args]; [name] is
    [func.__name__]. *)
Definition time_it {Args A} (name : string) (func : Args -> io A) (args : Args) : io A :=
  io_bind perf_counter (fun start_time =>
  io_bind (func args) (fun result =>
  io_bind perf_counter (fun end_time =>
  let total_time := (end_time - start_time)%Q in
  io_bind (print (Took name total_time)) (fun _ =>
  io_ret result)))).

(** ** [normalise] *)

Local Open Scope R_scope.

(** Elementwise operation on two one-dimensional arrays, with numpy's
    broadcasting: the lengths agree, or one of the arrays has length 1. *)
Definition broadcast (f : R -> R -> R) (u v : list R) : result (list R) :=
  if decide (length u = length v) then inr (zip_with f u v)
  else match u, v with
       | [a], _ => inr (map (f a) v)
       | _, [b] => inr (map (fun a => f a b) u)
       | _, _ => inl (ValueError "")
       end.

(** [np.sqrt]: nan below zero. *)
Definition np_sqrt (a : R) : number R :=
  if Rlt_dec a 0 then NonFinite else Fin (sqrt a).

(** [s / d] for finite [s] and [d]: inf or nan when [d] is zero. *)
Definition true_divide (s d : R) : number R :=
  if Req_dec_T d 0 then NonFinite else Fin (s / d).

(** The area under [state * state], as [normalise] computes it. *)
Definition area (state xs : list R) : result R :=
  let dxs := zip_with Rminus (drop 1 xs) (take (length xs - 1) xs) in
  let temp := zip_with Rmult state state in
  let sums := zip_with Rplus (take (length temp - 1) temp) (drop 1 temp) in
  match broadcast Rmult (map (Rmult (1 / 2)) sums) dxs with
  | inl e => inl e
  | inr terms => inr (fold_right Rplus 0 terms)
  end.

Definition normalise (state xs : list R) : result (list (number R)) :=
  match area state xs with
  | inl e => inl e
  | inr area =>
      match np_sqrt area with
      | NonFinite => inr (map (fun _ => NonFinite) state)   (* state / nan *)
      | Fin root => inr (map (fun s => true_divide s root) state)
      end
  end.

(** ** [scope_roots] *)

Definition scope_roots {Args : Type} (func : Q -> Args -> Q) (x0 : Q)
    (args : Args) (max_iters : Z) : result (Q * bool) :=
  inl (NotImplementedError "This function is not implemented yet.").

(** ** The trapezoidal rule, as the specification states it *)

(** [sum over k of (1/2) * (y_k + y_{k+1}) * (x_{k+1} - x_k)] *)
Fixpoint trapz (ys xs : list R) : R :=
  match ys, xs with
  | y0 :: ys', x0 :: xs' =>
      match ys', xs' with
      | y1 :: _, x1 :: _ => 1 / 2 * (y0 + y1) * (x1 - x0) + trapz ys' xs'
      | _, _ => 0
      end
  | _, _ => 0
  end.

Definition squares (v : list R) : list R := map (fun s => s * s) v.

Definition strictly_increasing (xs : list R) : Prop :=
  forall (i : nat) (a b : R), xs !! i = Some a -> xs !! S i = Some b -> a < b.

(** ** Clocks, for the facts about [time_it] *)

(** The world after one reading of the performance counter. *)
Definition tick (w : world) : world := fst (perf_counter w).

(** The performance counter never runs backwards. *)
Definition monotonic (w : world) : Prop :=
  forall i j : nat, (i <= j)%nat -> (readings w i <= readings w j)%Q.

(** The call [func args] leaves the readings of the counter alone and
    never rewinds it. *)
Definition clock_forward {Args A} (func : Args -> io A) (args : Args) : Prop :=
  forall w, readings (fst (func args w)) = readings w /\
            (calls w <= calls (fst (func args w)))%nat.

(** The lengths of the two arrays that [normalise] multiplies: the slices
    [temp[:-1]] and [xs[1:]].  The product fails when they differ and
    neither is 1. *)
Definition mismatch (state xs : list R) : Prop :=
  let p := (length state - 1)%nat in
  let q := (length xs - 1)%nat in
  p <> q /\ p <> 1%nat /\ q <> 1%nat.

End Tools.

Module Fem.

(** Equality of floats up to the representation of the rational. *)
Definition feq (u v : number Q) : Prop :=
  match u, v with
  | Fin a, Fin b => (a == b)%Q
  | NonFinite, NonFinite => True
  | _, _ => False
  end.

Definition fadd (u v : number Q) : number Q :=
  match u, v with
  | Fin a, Fin b => Fin (a + b)%Q
  | _, _ => NonFinite
  end.

Definition fmul (u v : number Q) : number Q :=
  match u, v with
  | Fin a, Fin b => Fin (a * b)%Q
  | _, _ => NonFinite
  end.

(** [a / b] on finite operands: a zero divisor gives inf or nan. *)
Definition fdiv (a b : Q) : number Q :=
  if Qeq_bool b 0 then NonFinite else Fin (a / b)%Q.

Definition Qlt_bool (a b : Q) : bool := negb (Qle_bool b a).

(** ** numpy arrays (one-dimensional) *)

(** [a[i]] for an integer [i]: negative indices count from the end, an
    index out of range raises IndexError. *)
Definition ndarray_getitem (a : list Q) (i : Z) : result Q :=
  let n := Z.of_nat (length a) in
  let k := if i <? 0 then i + n else i in
  if (0 <=? k) && (k <? n) then
    match a !! Z.to_nat k with
    | Some x => inr x
    | None => inl (IndexError "")
    end
  else inl (IndexError "").

(** [range(a, b)] *)
Definition range (a b : Z) : list Z := seqZ a (b - a).

(** ** scipy.sparse *)

(** [dok_matrix]: a dictionary of keys [(row, column)]. *)
Record dok : Type := Dok { dok_shape : Z * Z; dok_data : gmap (Z * Z) (number Q) }.

Inductive sparse_format : Type := CSC | CSR.

Record spmatrix : Type :=
  SpMatrix { sp_format : sparse_format;
             sp_shape : Z * Z;
             sp_data : gmap (Z * Z) (number Q) }.

(** [sp.dok_matrix((r, c))] *)
Definition dok_matrix (shape : Z * Z) : result dok :=
  if (fst shape <? 0) || (snd shape <? 0) then inl (ValueError "")
  else inr (Dok shape ∅).

(** [matrice[i, j] = v], for integer [i] and [j]: negative indices count
    from the end, an index out of range raises IndexError.  (scipy leaves
    an assigned zero out of the dictionary; [entry] reads 0 either way.) *)
Definition dok_setitem (m : dok) (key : Z * Z) (v : number Q) : result dok :=
  let '(r, c) := dok_shape m in
  let i := if fst key <? 0 then fst key + r else fst key in
  let j := if snd key <? 0 then snd key + c else snd key in
  if (0 <=? i) && (i <? r) && (0 <=? j) && (j <? c) then
    inr (Dok (dok_shape m) (<[(i, j) := v]> (dok_data m)))
  else inl (IndexError "").

Definition tocsc (m : dok) : spmatrix := SpMatrix CSC (dok_shape m) (dok_data m).
Definition tocsr (m : dok) : spmatrix := SpMatrix CSR (dok_shape m) (dok_data m).

(** Entry [(i, j)] of the matrix: a key that was never set reads as 0. *)
Definition entry (m : spmatrix) (i j : Z) : number Q :=
  default (Fin 0%Q) (sp_data m !! (i, j)).

(** [m.toarray()] *)
Definition toarray (m : spmatrix) : list (list (number Q)) :=
  let '(r, c) := sp_shape m in
  (fun i => (fun j => entry m i j) <$> seqZ 0 c) <$> seqZ 0 r.

(** ** class Grid *)

Record Grid : Type := { points : list Q }.

(** [Grid.__init__]: [points[1:] - points[:-1]] is the array of adjacent
    differences; the grid is refused when one of them is negative. *)
Definition diffs (pts : list Q) : list Q :=
  zip_with Qminus (drop 1 pts) (take (length pts - 1)%nat pts).

Definition Grid_init (pts : list Q) : result Grid :=
  if existsb (fun d => Qlt_bool d 0) (diffs pts)
  then inl (ValueError "Points must be sorted.")
  else inr {| points := pts |}.

(** A method runs on the object [self] and gives back the object together
    with an exception or a value. *)
Definition method (A : Type) : Type := Grid -> Grid * result A.

Definition ret {A} (a : A) : method A := fun self => (self, inr a).

Definition bind {A B} (c : method A) (k : A -> method B) : method B :=
  fun self =>
    match c self with
    | (self', inl e) => (self', inl e)
    | (self', inr a) => k a self'
    end.

(** Lifts a call that does not touch [self]. *)
Definition lift {A} (r : result A) : method A := fun self => (self, r).

(** Reads the attribute [self.points]. *)
Definition self_points : method (list Q) := fun self => (self, inr (points self)).

Declare Scope method_scope.
Delimit Scope method_scope with method.
Notation "x <- c ;; k" := (bind c (fun x => k))
  (at level 100, c at next level, right associativity) : method_scope.

Local Open Scope method_scope.

(** [for i in l: acc = body(i, acc)] *)
Fixpoint for_each {A} (l : list Z) (body : Z -> A -> method A) (acc : A) : method A :=
  match l with
  | [] => ret acc
  | i :: l' => acc' <- body i acc ;; for_each l' body acc'
  end.

(** [len(self)] *)
Definition Grid_len : method Z :=
  pts <- self_points ;; ret (Z.of_nat (length pts)).

(** [self.points[i]] *)
Definition point (i : Z) : method Q :=
  pts <- self_points ;; lift (ndarray_getitem pts i).

Definition matrice_masse_interne : method spmatrix :=
  n <- Grid_len ;;
  matrice <- lift (dok_matrix (n - 2, n - 2)) ;;
  matrice <- for_each (range 1 (n - 1)) (fun site matrice =>
    a <- point (site + 1) ;;
    b <- point (site - 1) ;;
    lift (dok_setitem matrice (site - 1, site - 1) (Fin ((a - b) / 3)%Q)))
    matrice ;;
  matrice <- for_each (range 1 (n - 2)) (fun site matrice =>
    a <- point (site + 1) ;;
    b <- point site ;;
    let valeur := Fin ((a - b) / 6)%Q in
    matrice <- lift (dok_setitem matrice (site - 1, site) valeur) ;;
    lift (dok_setitem matrice (site, site - 1) valeur))
    matrice ;;
  ret (tocsc matrice).

(** [[f(i) for i in l]] *)
Fixpoint map_each {A} (l : list Z) (f : Z -> method A) : method (list A) :=
  match l with
  | [] => ret []
  | i :: l' => x <- f i ;; xs <- map_each l' f ;; ret (x :: xs)
  end.

(** [sum(terms)]: Python starts from 0 and adds from the left. *)
Definition fsum (terms : list (number Q)) : number Q :=
  fold_left fadd terms (Fin 0%Q).

Definition matrice_laplacienne_interne : method spmatrix :=
  n <- Grid_len ;;
  matrice <- lift (dok_matrix (n - 2, n - 2)) ;;
  matrice <- for_each (range 1 (n - 1)) (fun site matrice =>
    terms <- map_each [site - 1; site] (fun i =>
      a <- point i ;;
      b <- point (i + 1) ;;
      ret (fdiv 1 (a - b))) ;;
    lift (dok_setitem matrice (site - 1, site - 1) (fsum terms)))
    matrice ;;
  matrice <- for_each (range 1 (n - 2)) (fun site matrice =>
    a <- point (site + 1) ;;
    b <- point site ;;
    let valeur := fdiv 1 (a - b) in
    matrice <- lift (dok_setitem matrice (site - 1, site) valeur) ;;
    lift (dok_setitem matrice (site, site - 1) valeur))
    matrice ;;
  ret (tocsc matrice).

(** [v ** 2] *)
Definition fsquare (v : number Q) : number Q :=
  match v with Fin a => Fin (a ^ 2)%Q | NonFinite => NonFinite end.

(** [pts[i]] inside the integrands.  The integrands only read the two grid
    points that [matrice_potentiel] has just read as integration bounds, so
    the lookup cannot fail there and the default is never used. *)
Definition item (pts : list Q) (i : Z) : Q :=
  match ndarray_getitem pts i with inr x => x | inl _ => 0%Q end.

(** The two ramps of the hat function of [site]. *)
Definition pente_pos (pts : list Q) (x : Q) (site : Z) : number Q :=
  let num := (x - item pts (site - 1))%Q in
  let denom := (item pts site - item pts (site - 1))%Q in
  fdiv num denom.

Definition pente_neg (pts : list Q) (x : Q) (site : Z) : number Q :=
  let num := (item pts (site + 1) - x)%Q in
  let denom := (item pts (site + 1) - item pts site)%Q in
  fdiv num denom.

Section Potentiel.

(** [quad f a b] is [scipy.integrate.quad(f, a, b)[0]], the value the
    quadrature routine returns for the integral of [f] over [[a, b]]. *)
Variable quad : (Q -> number Q) -> Q -> Q -> number Q.

Definition matrice_potentiel (potentiel : Q -> number Q) : method spmatrix :=
  n <- Grid_len ;;
  matrice <- lift (dok_matrix (n - 2, n - 2)) ;;
  matrice <- for_each (range 1 (n - 1)) (fun site matrice =>
    pts <- self_points ;;
    a <- point (site - 1) ;;
    b <- point site ;;
    let valeur_pos :=
      quad (fun x => fmul (potentiel x) (fsquare (pente_pos pts x site))) a b in
    a <- point site ;;
    b <- point (site + 1) ;;
    let valeur_neg :=
      quad (fun x => fmul (potentiel x) (fsquare (pente_neg pts x site))) a b in
    lift (dok_setitem matrice (site - 1, site - 1) (fadd valeur_pos valeur_neg)))
    matrice ;;
  matrice <- for_each (range 1 (n - 2)) (fun site matrice =>
    pts <- self_points ;;
    a <- point site ;;
    b <- point (site + 1) ;;
    let valeur :=
      quad (fun x => fmul (fmul (potentiel x) (pente_pos pts x (site + 1)))
                          (pente_neg pts x site)) a b in
    matrice <- lift (dok_setitem matrice (site - 1, site) valeur) ;;
    lift (dok_setitem matrice (site, site - 1) valeur))
    matrice ;;
  ret (tocsr matrice).

End Potentiel.

(** ** Grids as the specification describes them *)

(** Every pair of adjacent points is related by [R]. *)
Definition adjacent (R : Q -> Q -> Prop) (pts : list Q) : Prop :=
  forall (i : nat) (a b : Q),
    pts !! i = Some a -> pts !! S i = Some b -> R a b.

Definition strictly_increasing : list Q -> Prop := adjacent Qlt.
Definition non_decreasing : list Q -> Prop := adjacent Qle.

(** Some adjacent difference [x_{i+1} - x_i] is negative. *)
Definition has_negative_difference (pts : list Q) : Prop :=
  exists (i : nat) (a b : Q),
    pts !! i = Some a /\ pts !! S i = Some b /\ (b - a < 0)%Q.

(** ** Matrices as the specification describes them *)

Definition symmetric (M : spmatrix) : Prop :=
  forall i j, entry M i j = entry M j i.

Definition tridiagonal (M : spmatrix) : Prop :=
  forall i j, 1 < Z.abs (i - j) -> entry M i j = Fin 0%Q.

(** The matrix of a grid of [n] points, restricted to the interior: output
    index [site - 1] stands for the interior point [site].  [dv site] is
    the diagonal entry of [site], [ov site] the entry between [site] and
    [site + 1], on both sides of the diagonal. *)
Definition interior_matrix (n : Z) (dv ov : Z -> number Q) (M : spmatrix) : Prop :=
  sp_shape M = (n - 2, n - 2) /\
  (forall site, 1 <= site <= n - 2 ->
     entry M (site - 1) (site - 1) = dv site) /\
  (forall site, 1 <= site <= n - 3 ->
     entry M (site - 1) site = ov site /\ entry M site (site - 1) = ov site) /\
  symmetric M /\ tridiagonal M.

(** What the two loops leave under the key [(i, j)]. *)
Definition assembled (n : Z) (dv ov : Z -> number Q) (i j : Z) : option (number Q) :=
  if decide (i = j + 1 /\ 0 <= j < n - 3) then Some (ov (j + 1))
  else if decide (j = i + 1 /\ 0 <= i < n - 3) then Some (ov (i + 1))
  else if decide (i = j /\ 0 <= i < n - 2) then Some (dv (i + 1))
  else None.

(** ** Accuracy of the quadrature routine

    [scipy.integrate.quad] is not part of the repository.  What the test
    of [matrice_potentiel] needs from it is stated on polynomial
    integrands, where the integral has a closed form. *)

(** The polynomial [c_0 + c_1 t + c_2 t^2 + ...]. *)
Fixpoint peval (c : list Q) (t : Q) : Q :=
  match c with
  | [] => 0
  | a :: c' => a + t * peval c' t
  end%Q.

(** Term by term primitive: [c_k t^k] becomes [c_k / (k+1) t^(k+1)]. *)
Fixpoint primitive_from (k : positive) (c : list Q) : list Q :=
  match c with
  | [] => []
  | a :: c' => (a / (Zpos k # 1))%Q :: primitive_from (Pos.succ k) c'
  end.

Definition primitive (c : list Q) : list Q := 0%Q :: primitive_from 1 c.

(** The integral of the polynomial [c] over [[a, b]]. *)
Definition integral (c : list Q) (a b : Q) : Q :=
  (peval (primitive c) b - peval (primitive c) a)%Q.

(** On an integrand that is a polynomial of degree at most 4 over the
    interval, [quad] returns a finite value within [eps] of the integral. *)
Definition quad_accurate (eps : Q)
    (quad : (Q -> number Q) -> Q -> Q -> number Q) : Prop :=
  forall (f : Q -> number Q) (c : list Q) (a b : Q),
    (length c <= 5)%nat -> (a <= b)%Q ->
    (forall t, (a <= t <= b)%Q -> feq (f t) (Fin (peval c t))) ->
    exists v, quad f a b = Fin v /\ (Qabs (v - integral c a b) <= eps)%Q.

(** Every entry of the dense matrix is finite and within [tol] of the
    expected one (numpy's [assert_allclose] with [atol = tol]). *)
Definition allclose (tol : Q) (actual : list (list (number Q)))
    (expected : list (list Q)) : Prop :=
  Forall2 (Forall2 (fun v e => exists q, v = Fin q /\ (Qabs (q - e) <= tol)%Q))
    actual expected.

(** Boole's rule on five equally spaced nodes, a quadrature rule that is
    exact up to degree 5. *)
Definition boole (f : Q -> number Q) (a b : Q) : number Q :=
  let h := ((1 # 4) * (b - a))%Q in
  fmul (Fin ((1 # 90) * (b - a))%Q)
    (fadd (fadd (fadd (fadd (fmul (Fin 7%Q) (f a))
                            (fmul (Fin 32%Q) (f (a + h)%Q)))
                      (fmul (Fin 12%Q) (f (a + 2 * h)%Q)))
                (fmul (Fin 32%Q) (f (a + 3 * h)%Q)))
          (fmul (Fin 7%Q) (f b))).

(** ** Frame conditions *)

(** The method gives back the object it was called on. *)
Definition keeps_self {A} (c : method A) : Prop := forall g, fst (c g) = g.

(** Two calls of a method in a row, the second on the object the first
    one left: the points never change and both calls give the same
    outcome. *)
Definition repeatable {A} (m : method A) (g : Grid) : Prop :=
  let '(g1, r1) := m g in
  let '(g2, r2) := m g1 in
  points g1 = points g /\ points g2 = points g /\ r2 = r1.

(** ** [solve_shrodinger_using_fem] *)

(** The function is decorated with [tools.time_it]; its body raises. *)
Definition solve_shrodinger_using_fem (potential : Q -> number Q)
    (points : list Q) (n_states : Z) : Tools.io (list Q * list (list Q)) :=
  Tools.time_it "solve_shrodinger_using_fem"
    (fun _ : (Q -> number Q) * list Q * Z =>
       Tools.io_raise (NotImplementedError "You need to implement this function."))
    (potential, points, n_states).

(** ** Products with a vector, for the facts about the matrices *)

(** Component [i] of the product of the matrix with the vector [v], whose
    component [j] is [v j]: the sum over the columns [j] of
    [M[i, j] * v j]. *)
Definition row_dot (M : spmatrix) (i : Z) (v : Z -> Q) : number Q :=
  fsum ((fun j => fmul (entry M i j) (Fin (v j))) <$> seqZ 0 (snd (sp_shape M))).

(** The sum of a list of rationals. *)
Definition qsum (l : list Q) : Q := fold_right Qplus 0%Q l.

(** A vector with one non-zero component. *)
Definition spike (a : Z) (c : Q) (j : Z) : Q :=
  if decide (j = a) then c else 0%Q.

(** What [assembled] leaves when every value written is finite. *)
Definition band (n : Z) (dq oq : Z -> Q) (i j : Z) : Q :=
  if decide (i = j + 1 /\ 0 <= j < n - 3) then oq (j + 1)
  else if decide (j = i + 1 /\ 0 <= i < n - 3) then oq (i + 1)
  else if decide (i = j /\ 0 <= i < n - 2) then dq (i + 1)
  else 0%Q.


End Fem.

(** The rest of [src/tools.py].  [lin_extrapolate] works on floats that
    may be non-finite, with the operations of [Fem]. *)
Module ToolsQ.

Import Fem.

Definition rbind {A B} (r : result A) (k : A -> result B) : result B :=
  match r with
  | inl e => inl e
  | inr a => k a
  end.

(** [lin_extrapolate]: the slope [a] through the two reference points,
    then the value of the line at [xf].  The elements are read in the
    order in which Python evaluates them. *)
Definition lin_extrapolate (xs ys : list Q) (xf : Q) : result (number Q) :=
  rbind (ndarray_getitem ys 0) (fun y0 =>
  rbind (ndarray_getitem ys 1) (fun y1 =>
  rbind (ndarray_getitem xs 0) (fun x0 =>
  rbind (ndarray_getitem xs 1) (fun x1 =>
  let a := fdiv (y0 - y1) (x0 - x1) in
  rbind (ndarray_getitem ys 0) (fun y0' =>
  rbind (ndarray_getitem xs 0) (fun x0' =>
  inr (fadd (Fin y0') (fmul a (Fin (xf - x0')%Q))))))))).

End ToolsQ.

Module Shooting.

(** [schrodinger]: the state is unpacked into [psi] and [dpsi], then the
    body raises. *)
Definition schrodinger (state : Q * Q) (x : Q) (potential : Q -> Q)
    (energy : Q) : result (Q * Q) :=
  let '(psi, dpsi) := state in
  inl (NotImplementedError "This function is not implemented yet.").

End Shooting.

Module ToolsFacts.

Import Tools.
Local Open Scope R_scope.

(** ** Facts *)

Lemma squares_zip (v : list R) : zip_with Rmult v v = squares v.
Proof. induction v as [|a v IH]; simpl; [done | by rewrite IH]. Qed.

Lemma length_squares (v : list R) : length (squares v) = length v.
Proof. apply length_map. Qed.

Lemma strictly_increasing_tail (x : R) (xs : list R) :
  strictly_increasing (x :: xs) -> strictly_increasing xs.
Proof. intros H i a b Ha Hb. exact (H (S i) a b Ha Hb). Qed.

(** The adjacent pairs of a list, as the slices [l[1:]] and [l[:-1]]
    line them up. *)
Lemma slices_cons (f : R -> R -> R) (a b : R) (l : list R) :
  zip_with f (drop 1 (a :: b :: l)) (take (length (a :: b :: l) - 1) (a :: b :: l))
  = f b a :: zip_with f (drop 1 (b :: l)) (take (length (b :: l) - 1) (b :: l)).
Proof. simpl. by rewrite Nat.sub_0_r. Qed.

Lemma slices_cons' (f : R -> R -> R) (a b : R) (l : list R) :
  zip_with f (take (length (a :: b :: l) - 1) (a :: b :: l)) (drop 1 (a :: b :: l))
  = f a b :: zip_with f (take (length (b :: l) - 1) (b :: l)) (drop 1 (b :: l)).
Proof. simpl. by rewrite Nat.sub_0_r. Qed.

Lemma length_slices (f : R -> R -> R) (l : list R) :
  length (zip_with f (drop 1 l) (take (length l - 1) l)) = (length l - 1)%nat.
Proof. rewrite length_zip_with, length_drop, length_take. lia. Qed.

Lemma length_slices' (f : R -> R -> R) (l : list R) :
  length (zip_with f (take (length l - 1) l) (drop 1 l)) = (length l - 1)%nat.
Proof. rewrite length_zip_with, length_drop, length_take. lia. Qed.

Lemma trapz_cons (y0 y1 x0 x1 : R) (ys xs : list R) :
  trapz (y0 :: y1 :: ys) (x0 :: x1 :: xs)
  = 1 / 2 * (y0 + y1) * (x1 - x0) + trapz (y1 :: ys) (x1 :: xs).
Proof. reflexivity. Qed.

(** The sum that [normalise] forms is the trapezoidal rule. *)
Lemma trapz_slices (ys xs : list R) :
  length ys = length xs ->
  fold_right Rplus 0
    (zip_with Rmult
       (map (Rmult (1 / 2)) (zip_with Rplus (take (length ys - 1) ys) (drop 1 ys)))
       (zip_with Rminus (drop 1 xs) (take (length xs - 1) xs)))
  = trapz ys xs.
Proof.
  revert xs. induction ys as [|y0 ys IH]; intros [|x0 xs] Hlen;
    try discriminate; [reflexivity |].
  destruct ys as [|y1 ys], xs as [|x1 xs]; try discriminate; [reflexivity |].
  rewrite slices_cons, slices_cons', trapz_cons.
  cbn [map zip_with fold_right].
  rewrite IH by (simpl in *; lia). lra.
Qed.

Lemma area_trapz (state xs : list R) :
  length state = length xs -> area state xs = inr (trapz (squares state) xs).
Proof.
  intros Hlen. unfold area, broadcast. rewrite squares_zip.
  rewrite decide_True.
  - by rewrite trapz_slices by (by rewrite length_squares).
  - rewrite length_map, length_slices, length_slices', length_squares. lia.
Qed.

Lemma trapz_nonneg (ys xs : list R) :
  Forall (fun y => 0 <= y) ys -> strictly_increasing xs -> 0 <= trapz ys xs.
Proof.
  revert xs. induction ys as [|y0 ys IH]; intros [|x0 xs] Hpos Hinc;
    try (simpl; lra).
  destruct ys as [|y1 ys], xs as [|x1 xs]; try (simpl; lra).
  rewrite trapz_cons.
  pose proof (Hinc 0%nat x0 x1 eq_refl eq_refl) as Hx.
  inversion Hpos as [|? ? Hy0 Hpos']; subst.
  inversion Hpos' as [|? ? Hy1 _]; subst.
  specialize (IH (x1 :: xs) Hpos' (strictly_increasing_tail _ _ Hinc)).
  assert (0 <= (y0 + y1) * (x1 - x0)) by (apply Rmult_le_pos; lra).
  lra.
Qed.

Lemma squares_nonneg (v : list R) : Forall (fun y => 0 <= y) (squares v).
Proof.
  induction v as [|s v IH]; constructor; [| exact IH].
  apply Rle_0_sqr.
Qed.

Lemma trapz_scale (c : R) (ys xs : list R) :
  trapz (map (fun y => y * c) ys) xs = trapz ys xs * c.
Proof.
  revert xs. induction ys as [|y0 ys IH]; intros [|x0 xs]; try (simpl; lra).
  destruct ys as [|y1 ys], xs as [|x1 xs]; try (simpl; lra).
  change (map (fun y => y * c) (y0 :: y1 :: ys))
    with (y0 * c :: y1 * c :: map (fun y => y * c) ys).
  rewrite !trapz_cons.
  change (y1 * c :: map (fun y => y * c) ys) with (map (fun y => y * c) (y1 :: ys)).
  rewrite IH. lra.
Qed.

(** C8: for a real state vector and a strictly increasing grid of the
    same length [N >= 2], when the trapezoidal integral of the squared
    state is not zero, [normalise] returns the state divided by the square
    root of that integral, and the trapezoidal integral of the square of
    the returned vector is exactly 1. *)
Theorem normalise_spec (state xs : list R) :
  length state = length xs -> (2 <= length state)%nat ->
  strictly_increasing xs ->
  trapz (squares state) xs <> 0 ->
  let a := trapz (squares state) xs in
  let out := map (fun s => s / sqrt a) state in
  normalise state xs = inr (map Fin out) /\ trapz (squares out) xs = 1.
Proof.
  intros Hlen HN Hinc Hne a out.
  assert (Ha : 0 < a).
  { pose proof (trapz_nonneg _ _ (squares_nonneg state) Hinc). subst a. lra. }
  assert (Hroot : 0 < sqrt a) by (by apply sqrt_lt_R0).
  split.
  - unfold normalise. rewrite area_trapz by done. fold a.
    unfold np_sqrt. destruct (Rlt_dec a 0) as [H|_]; [lra |].
    subst out. rewrite map_map. f_equal. apply map_ext. intros s.
    unfold true_divide. destruct (Req_dec_T (sqrt a) 0); [lra | reflexivity].
  - assert (E : squares out = map (fun y => y * / a) (squares state)).
    { subst out. unfold squares. rewrite !map_map. apply map_ext. intros s.
      rewrite <- (sqrt_sqrt a) at 3 by lra. field. lra. }
    rewrite E, trapz_scale. fold a. field. lra.
Qed.

Lemma normalise_spec_witness :
  strictly_increasing [0; 1; 2] /\
  normalise [0; 2; 0] [0; 1; 2] = inr (map Fin (map (fun s => s / sqrt (trapz (squares [0; 2; 0]) [0; 1; 2])) [0; 2; 0])) /\
  trapz (squares (map (fun s => s / sqrt (trapz (squares [0; 2; 0]) [0; 1; 2])) [0; 2; 0])) [0; 1; 2] = 1.
Proof.
  assert (Hinc : strictly_increasing [0; 1; 2]).
  { intros [|[|[|i]]] a b Ha Hb; simplify_eq/=; lra. }
  split; [exact Hinc |].
  apply (normalise_spec [0; 2; 0] [0; 1; 2]); [reflexivity | simpl; lia | exact Hinc |].
  simpl. lra.
Defined.

(** ** More about [time_it] *)

(** X1: [time_it] is transparent.  When the wrapped call raises, the same
    exception propagates and nothing is printed.  When it returns, the
    same value is returned and exactly one line is printed after whatever
    the call printed, with the difference of the two readings of the
    counter; that difference is not negative when the counter is monotonic
    and the call does not rewind it. *)
Theorem time_it_transparent {Args A} (name : string) (func : Args -> io A)
    (args : Args) (w : world) :
  (forall w' e, func args (tick w) = (w', inl e) ->
     time_it name func args w = (w', inl e)) /\
  (forall w' r, func args (tick w) = (w', inr r) ->
     exists total_time,
       time_it name func args w
       = (World (readings w') (S (calls w')) (stdout w' ++ [Took name total_time]),
          inr r) /\
       total_time = (readings w' (calls w') - readings w (calls w))%Q /\
       (monotonic w -> clock_forward func args -> (0 <= total_time)%Q)).
Proof.
  split.
  - intros w' e Hrun. unfold time_it, io_bind. cbn [perf_counter].
    change (World (readings w) (S (calls w)) (stdout w)) with (tick w).
    by rewrite Hrun.
  - intros w' r Hrun. eexists. split; [| split; [reflexivity |]].
    + unfold time_it, io_bind. cbn [perf_counter].
      change (World (readings w) (S (calls w)) (stdout w)) with (tick w).
      rewrite Hrun. reflexivity.
    + intros Hmono Hfwd. destruct (Hfwd (tick w)) as [Hr Hc].
      rewrite Hrun in Hr, Hc. cbn [fst tick perf_counter readings calls] in Hr, Hc.
      rewrite Hr. specialize (Hmono (calls w) (calls w') ltac:(lia)). lra.
Qed.

Lemma time_it_transparent_witness :
  exists total_time,
    time_it "f" (fun (x : Q) => io_ret (x + 1)%Q) 1%Q
      (World (fun k => inject_Z (Z.of_nat k)) 0 [])
    = (World (fun k => inject_Z (Z.of_nat k)) 2 [Took "f" total_time], inr 2%Q) /\
    (0 <= total_time)%Q.
Proof.
  set (w := World (fun k => inject_Z (Z.of_nat k)) 0 []).
  destruct (proj2 (time_it_transparent "f" (fun (x : Q) => io_ret (x + 1)%Q) 1%Q w)
              (tick w) 2%Q eq_refl) as (t & Hrun & Ht & Hpos).
  exists t. split; [exact Hrun |]. apply Hpos.
  - intros i j Hij. simpl. rewrite <- Zle_Qle. lia.
  - intros w0. split; [reflexivity | simpl; lia].
Defined.

(** ** More about [normalise] *)

Lemma broadcast_raises (f : R -> R -> R) (u v : list R) :
  (exists e, broadcast f u v = inl e) <->
  (length u <> length v /\ length u <> 1%nat /\ length v <> 1%nat).
Proof.
  unfold broadcast. destruct (decide (length u = length v)) as [E|E].
  - split; [intros [e He]; discriminate | tauto].
  - destruct u as [|a [|a' u]], v as [|b [|b' v]]; simpl in *;
      (split; [intros [e He]; try discriminate; repeat split; lia
              | intros (H1 & H2 & H3); try lia; eauto]).
Qed.

Lemma broadcast_ValueError (f : R -> R -> R) (u v : list R) (e : exception) :
  broadcast f u v = inl e -> exc_class e = "ValueError"%string.
Proof.
  unfold broadcast. destruct (decide _); [discriminate |].
  destruct u as [|a [|a' u]], v as [|b [|b' v]]; intros H; by simplify_eq.
Qed.

Lemma length_halves (state : list R) :
  length (map (Rmult (1 / 2))
            (zip_with Rplus
               (take (length (zip_with Rmult state state) - 1)
                     (zip_with Rmult state state))
               (drop 1 (zip_with Rmult state state))))
  = (length state - 1)%nat.
Proof.
  rewrite length_map, length_slices', length_zip_with. lia.
Qed.

Lemma area_raises (state xs : list R) :
  (exists e, area state xs = inl e) <-> mismatch state xs.
Proof.
  unfold area, mismatch. cbv zeta.
  pose proof (length_halves state) as HU.
  pose proof (length_slices Rminus xs) as HV.
  set (U := map (Rmult (1 / 2)) _) in *.
  set (V := zip_with Rminus _ _) in *.
  rewrite <- HU, <- HV, <- (broadcast_raises Rmult U V).
  destruct (broadcast Rmult U V) as [e|terms].
  - split; eauto.
  - split; intros [e He]; discriminate.
Qed.

(** X5: [normalise] raises exactly when numpy cannot broadcast
    [temp[:-1] + temp[1:]] against [dxs], that is when the two lengths
    minus one differ and neither is 1; the exception is then a ValueError.
    In every other case, equal lengths or not, it returns an array of the
    length of [state]. *)
Theorem normalise_raises (state xs : list R) :
  ((exists e, normalise state xs = inl e) <-> mismatch state xs) /\
  (forall e, normalise state xs = inl e -> exc_class e = "ValueError"%string) /\
  (forall out, normalise state xs = inr out -> length out = length state).
Proof.
  split; [split | split].
  - intros [e He]. apply area_raises. unfold normalise in He.
    destruct (area state xs) as [e'|a]; [eauto |].
    destruct (np_sqrt a); discriminate.
  - intros H. apply area_raises in H as [e He].
    exists e. unfold normalise. by rewrite He.
  - intros e. unfold normalise, area.
    destruct (broadcast _ _ _) as [e'|terms] eqn:E.
    + intros H. simplify_eq. by apply broadcast_ValueError in E.
    + destruct (np_sqrt _); discriminate.
  - intros out. unfold normalise.
    destruct (area state xs) as [e'|a]; [discriminate |].
    destruct (np_sqrt a); intros H; simplify_eq; by rewrite length_map.
Qed.

Lemma normalise_raises_witness :
  (exists e, normalise [1; 2; 3; 4] [0; 1; 2; 3; 4; 5] = inl e /\
             exc_class e = "ValueError"%string) /\
  (exists out, normalise [1; 2; 3; 4; 5] [0; 1] = inr out /\
               length out = 5%nat).
Proof.
  split.
  - destruct (normalise_raises [1; 2; 3; 4] [0; 1; 2; 3; 4; 5])
      as (Hiff & Hclass & _).
    destruct (proj2 Hiff) as [e He]; [unfold mismatch; simpl; lia |].
    exists e. split; [exact He | exact (Hclass e He)].
  - destruct (normalise_raises [1; 2; 3; 4; 5] [0; 1]) as (Hiff & _ & Hlen).
    destruct (normalise [1; 2; 3; 4; 5] [0; 1]) as [e|out] eqn:E.
    + exfalso. destruct (proj1 Hiff) as (H1 & H2 & H3); [by exists e |].
      simpl in H3. lia.
    + exists out. split; [reflexivity | exact (Hlen out eq_refl)].
Defined.

(** X6: [normalise] does not guard its division either: when the
    trapezoidal integral of the squared state is zero or negative (a zero
    state, a single point, a decreasing grid) it raises nothing and every
    component of the result is non-finite. *)
Theorem normalise_no_area (state xs : list R) :
  length state = length xs -> trapz (squares state) xs <= 0 ->
  normalise state xs = inr (map (fun _ => NonFinite) state).
Proof.
  intros Hlen Ha. unfold normalise. rewrite area_trapz by done.
  unfold np_sqrt. destruct (Rlt_dec _ 0) as [H|H]; [reflexivity |].
  assert (E : trapz (squares state) xs = 0) by lra.
  rewrite E, sqrt_0. f_equal. apply map_ext. intros s.
  unfold true_divide. destruct (Req_dec_T 0 0); [reflexivity | lra].
Qed.

Lemma normalise_no_area_witness :
  normalise [0; 0; 0] [0; 1; 2] = inr [NonFinite; NonFinite; NonFinite] /\
  normalise [5] [0] = inr [NonFinite].
Proof.
  split.
  - apply (normalise_no_area [0; 0; 0] [0; 1; 2]); [reflexivity | simpl; lra].
  - apply (normalise_no_area [5] [0]); [reflexivity | simpl; lra].
Defined.

Lemma normalise_positive (state xs : list R) :
  length state = length xs -> 0 < trapz (squares state) xs ->
  normalise state xs
  = inr (map Fin (map (fun s => s / sqrt (trapz (squares state) xs)) state)).
Proof.
  intros Hlen Ha. unfold normalise. rewrite area_trapz by done.
  unfold np_sqrt. destruct (Rlt_dec _ 0) as [H|_]; [lra |].
  pose proof (sqrt_lt_R0 _ Ha) as Hroot.
  rewrite map_map. f_equal. apply map_ext. intros s.
  unfold true_divide. destruct (Req_dec_T _ 0); [lra | reflexivity].
Qed.

Lemma squares_scaled (k : R) (state : list R) :
  squares (map (Rmult k) state) = map (fun y => y * (k * k)) (squares state).
Proof.
  unfold squares. rewrite !map_map. apply map_ext. intros s. ring.
Qed.

Lemma trapz_squares_scaled (k : R) (state xs : list R) :
  trapz (squares (map (Rmult k) state)) xs = trapz (squares state) xs * (k * k).
Proof. by rewrite squares_scaled, trapz_scale. Qed.

Lemma trapz_positive (state xs : list R) :
  strictly_increasing xs -> trapz (squares state) xs <> 0 ->
  0 < trapz (squares state) xs.
Proof.
  intros Hinc Hne.
  pose proof (trapz_nonneg _ _ (squares_nonneg state) Hinc). lra.
Qed.

(** X7: [normalise] is idempotent: on a strictly increasing grid, a
    normalised state is returned unchanged. *)
Theorem normalise_idempotent (state xs : list R) :
  length state = length xs -> strictly_increasing xs ->
  trapz (squares state) xs <> 0 ->
  exists out,
    normalise state xs = inr (map Fin out) /\
    normalise out xs = inr (map Fin out).
Proof.
  intros Hlen Hinc Hne.
  pose proof (trapz_positive _ _ Hinc Hne) as Ha.
  set (a := trapz (squares state) xs) in *.
  pose proof (sqrt_lt_R0 _ Ha) as Hroot.
  exists (map (fun s => s / sqrt a) state).
  split; [by apply normalise_positive |].
  assert (E : map (fun s => s / sqrt a) state = map (Rmult (/ sqrt a)) state).
  { apply map_ext. intros s. field. lra. }
  assert (H1 : trapz (squares (map (fun s => s / sqrt a) state)) xs = 1).
  { rewrite E, trapz_squares_scaled. fold a.
    rewrite <- (sqrt_sqrt a) at 1 by lra. field. lra. }
  rewrite normalise_positive by (rewrite ?length_map; lra || done).
  rewrite H1, sqrt_1. do 2 f_equal.
  rewrite <- (map_id (map _ state)) at 2.
  apply map_ext. intros s. field.
Qed.

Lemma normalise_idempotent_witness :
  exists out,
    normalise [0; 2; 0] [0; 1; 2] = inr (map Fin out) /\
    normalise out [0; 1; 2] = inr (map Fin out).
Proof.
  apply (normalise_idempotent [0; 2; 0] [0; 1; 2]); [reflexivity | |].
  - intros [|[|[|i]]] a b Ha Hb; simplify_eq/=; lra.
  - simpl. lra.
Defined.

(** X8: [normalise] forgets the scale of the state and keeps its sign:
    the state multiplied by [c <> 0] normalises to [c / |c|] times the
    normalised state, so to the same result when [c > 0]. *)
Theorem normalise_scale (c : R) (state xs : list R) :
  c <> 0 -> length state = length xs -> strictly_increasing xs ->
  trapz (squares state) xs <> 0 ->
  exists out,
    normalise state xs = inr (map Fin out) /\
    normalise (map (Rmult c) state) xs
    = inr (map Fin (map (Rmult (c / Rabs c)) out)) /\
    (0 < c -> normalise (map (Rmult c) state) xs = normalise state xs).
Proof.
  intros Hc Hlen Hinc Hne.
  pose proof (trapz_positive _ _ Hinc Hne) as Ha.
  set (a := trapz (squares state) xs) in *.
  pose proof (sqrt_lt_R0 _ Ha) as Hroot.
  pose proof (Rabs_pos_lt c Hc) as Habs.
  pose proof (Rsqr_pos_lt c Hc) as Hcc. unfold Rsqr in Hcc.
  assert (Hac : 0 < a * (c * c)) by (by apply Rmult_lt_0_compat).
  exists (map (fun s => s / sqrt a) state).
  assert (Hscaled : normalise (map (Rmult c) state) xs
            = inr (map Fin (map (Rmult (c / Rabs c)) (map (fun s => s / sqrt a) state)))).
  { rewrite normalise_positive;
      [| by rewrite length_map | by rewrite trapz_squares_scaled].
    rewrite trapz_squares_scaled. fold a.
    assert (Hs : sqrt (a * (c * c)) = sqrt a * Rabs c).
    { rewrite sqrt_mult by lra. f_equal. apply sqrt_Rsqr_abs. }
    rewrite Hs, !map_map. f_equal. apply map_ext. intros s.
    f_equal. field. lra. }
  split; [by apply normalise_positive |]. split; [exact Hscaled |].
  intros Hpos. rewrite Hscaled, normalise_positive by done. fold a.
  rewrite Rabs_right by lra. rewrite !map_map. f_equal.
  apply map_ext. intros s. f_equal. field. lra.
Qed.

Lemma normalise_scale_witness :
  exists out,
    normalise [0; 2; 0] [0; 1; 2] = inr (map Fin out) /\
    normalise (map (Rmult (-3)) [0; 2; 0]) [0; 1; 2]
    = inr (map Fin (map (Rmult (-3 / Rabs (-3))) out)).
Proof.
  destruct (normalise_scale (-3) [0; 2; 0] [0; 1; 2]) as (out & H1 & H2 & _);
    [lra | reflexivity | | simpl; lra |].
  - intros [|[|[|i]]] a b Ha Hb; simplify_eq/=; lra.
  - exists out. split; [exact H1 | exact H2].
Defined.

(** C6, on the code: [scope_roots] scans nothing and returns nothing.  For
    every function, starting point, extra arguments and iteration cap it
    raises NotImplementedError; so it does for [f(x) = x^2 - 1] from
    [x0 = 0] with the default cap of 500, where a root and [True] are
    expected, and for a function without a sign change, where [(x0, False)]
    is expected. *)
Theorem scope_roots_raises :
  (forall (Args : Type) (func : Q -> Args -> Q) (x0 : Q) (args : Args)
          (max_iters : Z),
     scope_roots func x0 args max_iters
     = inl (NotImplementedError "This function is not implemented yet.")) /\
  (forall out : Q * bool,
     scope_roots (fun (x : Q) (_ : unit) => (x ^ 2 - 1)%Q) 0%Q tt 500%Z <> inr out) /\
  scope_roots (fun (x : Q) (_ : unit) => (x ^ 2 + 1)%Q) 0%Q tt 500%Z
    <> inr (0%Q, false).
Proof. repeat split; intros; discriminate. Qed.

End ToolsFacts.

Module FemFacts.

Import Fem.
Local Open Scope method_scope.

(** ** Basic facts *)

Lemma Qlt_bool_true (a b : Q) : Qlt_bool a b = true <-> (a < b)%Q.
Proof.
  unfold Qlt_bool. rewrite negb_true_iff.
  destruct (Qle_bool b a) eqn:E.
  - apply Qle_bool_iff in E. split; [discriminate | intros H; lra].
  - split; [intros _ | reflexivity].
    destruct (Qlt_le_dec a b) as [H|H]; [exact H |].
    apply Qle_bool_iff in H. congruence.
Qed.

Lemma diffs_lookup (pts : list Q) (i : nat) :
  diffs pts !! i =
    match pts !! S i, pts !! i with
    | Some b, Some a => Some (b - a)%Q
    | _, _ => None
    end.
Proof.
  unfold diffs. rewrite lookup_zip_with, lookup_drop. simpl.
  destruct (pts !! S i) as [b|] eqn:Hb; simpl; [| reflexivity].
  apply lookup_lt_Some in Hb as Hlt.
  rewrite lookup_take_lt by lia.
  destruct (pts !! i); reflexivity.
Qed.

Lemma existsb_negative (pts : list Q) :
  existsb (fun d => Qlt_bool d 0) (diffs pts) = true <->
  has_negative_difference pts.
Proof.
  rewrite existsb_exists. split.
  - intros (d & Hin & Hd). apply Qlt_bool_true in Hd.
    apply list_elem_of_In, list_elem_of_lookup in Hin as [i Hi].
    rewrite diffs_lookup in Hi.
    destruct (pts !! S i) as [b|] eqn:Hb; [| discriminate].
    destruct (pts !! i) as [a|] eqn:Ha; [| discriminate].
    exists i, a, b. simplify_eq. auto.
  - intros (i & a & b & Ha & Hb & Hd).
    exists (b - a)%Q. split; [| by apply Qlt_bool_true].
    apply list_elem_of_In, list_elem_of_lookup. exists i.
    by rewrite diffs_lookup, Ha, Hb.
Qed.

Lemma Grid_init_sorted (pts : list Q) :
  non_decreasing pts -> Grid_init pts = inr {| points := pts |}.
Proof.
  intros Hs. unfold Grid_init.
  destruct (existsb _ (diffs pts)) eqn:E; [| reflexivity].
  apply existsb_negative in E as (i & a & b & Ha & Hb & Hd).
  specialize (Hs i a b Ha Hb). lra.
Qed.

(** ** Methods that leave the object alone *)

Lemma keeps_ret {A} (a : A) : keeps_self (ret a).
Proof. by intros g. Qed.

Lemma keeps_lift {A} (r : result A) : keeps_self (lift r).
Proof. by intros g. Qed.

Lemma keeps_self_points : keeps_self self_points.
Proof. by intros g. Qed.

Lemma keeps_bind {A B} (c : method A) (k : A -> method B) :
  keeps_self c -> (forall a, keeps_self (k a)) -> keeps_self (bind c k).
Proof.
  intros Hc Hk g. unfold bind. specialize (Hc g).
  destruct (c g) as [g' [e|a]]; simpl in *; subst; [done | apply Hk].
Qed.

Lemma keeps_for_each {A} (l : list Z) (body : Z -> A -> method A) (acc : A) :
  (forall i a, keeps_self (body i a)) -> keeps_self (for_each l body acc).
Proof.
  intros Hbody. revert acc.
  induction l as [|i l IH]; intros acc; simpl.
  - apply keeps_ret.
  - apply keeps_bind; [apply Hbody | exact IH].
Qed.

Lemma keeps_map_each {A} (l : list Z) (f : Z -> method A) :
  (forall i, keeps_self (f i)) -> keeps_self (map_each l f).
Proof.
  intros Hf. induction l as [|i l IH]; simpl.
  - apply keeps_ret.
  - apply keeps_bind; [apply Hf |]. intros a.
    apply keeps_bind; [exact IH |]. intros xs. apply keeps_ret.
Qed.

Create HintDb frame.
#[local] Hint Resolve keeps_ret keeps_lift keeps_self_points keeps_bind
  keeps_for_each keeps_map_each : frame.

Lemma keeps_Grid_len : keeps_self Grid_len.
Proof. unfold Grid_len. auto with frame. Qed.

Lemma keeps_point (i : Z) : keeps_self (point i).
Proof. unfold point. auto with frame. Qed.

#[local] Hint Resolve keeps_Grid_len keeps_point : frame.

Lemma keeps_matrice_masse_interne : keeps_self matrice_masse_interne.
Proof. unfold matrice_masse_interne. auto 12 with frame. Qed.

Lemma keeps_matrice_laplacienne_interne : keeps_self matrice_laplacienne_interne.
Proof. unfold matrice_laplacienne_interne. auto 12 with frame. Qed.

Lemma keeps_matrice_potentiel quad potentiel :
  keeps_self (matrice_potentiel quad potentiel).
Proof. unfold matrice_potentiel. auto 12 with frame. Qed.

Lemma keeps_self_repeatable {A} (m : method A) (g : Grid) :
  keeps_self m -> repeatable m g.
Proof.
  intros Hm. unfold repeatable.
  pose proof (Hm g) as H1. destruct (m g) as [g1 r1] eqn:E1.
  simpl in H1. subst g1. rewrite E1. done.
Qed.

(** ** Running the pieces of a method *)

Lemma bind_run {A B} (c : method A) (k : A -> method B) (g : Grid) (a : A) :
  c g = (g, inr a) -> bind c k g = k a g.
Proof. intros H. unfold bind. by rewrite H. Qed.

Lemma bind_assoc {A B C} (c : method A) (k : A -> method B)
    (k' : B -> method C) (g : Grid) :
  bind (bind c k) k' g = bind c (fun a => bind (k a) k') g.
Proof. unfold bind. by destruct (c g) as [g' [e|a]]. Qed.

Lemma bind_ret {A B} (a : A) (k : A -> method B) (g : Grid) :
  bind (ret a) k g = k a g.
Proof. reflexivity. Qed.

Lemma Grid_len_run (g : Grid) :
  Grid_len g = (g, inr (Z.of_nat (length (points g)))).
Proof. reflexivity. Qed.

Lemma ndarray_getitem_lookup (pts : list Q) (i : Z) (x : Q) :
  0 <= i -> pts !! Z.to_nat i = Some x -> ndarray_getitem pts i = inr x.
Proof.
  intros Hi Hx. unfold ndarray_getitem.
  apply lookup_lt_Some in Hx as Hlt.
  destruct (Z.ltb_spec i 0); [lia |].
  destruct (Z.leb_spec 0 i); [| lia].
  destruct (Z.ltb_spec i (Z.of_nat (length pts))); [| lia].
  simpl. by rewrite Hx.
Qed.

Lemma point_run (g : Grid) (i : Z) (x : Q) :
  0 <= i -> points g !! Z.to_nat i = Some x -> point i g = (g, inr x).
Proof.
  intros Hi Hx. unfold point, bind, self_points, lift.
  by rewrite (ndarray_getitem_lookup _ _ _ Hi Hx).
Qed.

Lemma item_lookup (pts : list Q) (i : Z) (x : Q) :
  0 <= i -> pts !! Z.to_nat i = Some x -> item pts i = x.
Proof.
  intros Hi Hx. unfold item. by rewrite (ndarray_getitem_lookup _ _ _ Hi Hx).
Qed.

(** Inside the grid every point exists and [item] reads it. *)
Lemma lookup_item (pts : list Q) (i : Z) :
  0 <= i < Z.of_nat (length pts) -> pts !! Z.to_nat i = Some (item pts i).
Proof.
  intros Hi. destruct (pts !! Z.to_nat i) as [x|] eqn:Hx.
  - by rewrite (item_lookup _ _ _ (proj1 Hi) Hx).
  - apply lookup_ge_None in Hx. lia.
Qed.

Lemma point_item (g : Grid) (i : Z) :
  0 <= i < Z.of_nat (length (points g)) ->
  point i g = (g, inr (item (points g) i)).
Proof. intros Hi. apply point_run; [lia | by apply lookup_item]. Qed.

Lemma dok_matrix_ok (r c : Z) :
  0 <= r -> 0 <= c -> dok_matrix (r, c) = inr (Dok (r, c) ∅).
Proof.
  intros Hr Hc. unfold dok_matrix. simpl.
  destruct (Z.ltb_spec r 0); [lia |].
  destruct (Z.ltb_spec c 0); [lia | reflexivity].
Qed.

Lemma dok_setitem_ok (m : dok) (r c i j : Z) (v : number Q) :
  dok_shape m = (r, c) -> 0 <= i < r -> 0 <= j < c ->
  dok_setitem m (i, j) v = inr (Dok (r, c) (<[(i, j) := v]> (dok_data m))).
Proof.
  intros Hs Hi Hj. unfold dok_setitem. rewrite Hs. simpl.
  destruct (Z.ltb_spec i 0); [lia |].
  destruct (Z.ltb_spec j 0); [lia |].
  destruct (Z.leb_spec 0 i); [| lia].
  destruct (Z.leb_spec 0 j); [| lia].
  destruct (Z.ltb_spec i r); [| lia].
  destruct (Z.ltb_spec j c); [| lia].
  reflexivity.
Qed.

Lemma elem_of_range (a b i : Z) : i ∈ range a b <-> a <= i < b.
Proof. unfold range. rewrite elem_of_seqZ. lia. Qed.

(** A loop whose body keeps [self] and an invariant of the sites already
    visited. *)
Lemma for_each_inv {A} (Inv : list Z -> A -> Prop)
    (body : Z -> A -> method A) (g : Grid) (l : list Z) :
  (forall i a pre, i ∈ l -> Inv pre a ->
     exists a', body i a g = (g, inr a') /\ Inv (pre ++ [i]) a') ->
  forall visited acc, Inv visited acc ->
  exists acc', for_each l body acc g = (g, inr acc') /\ Inv (visited ++ l) acc'.
Proof.
  induction l as [|i l IH]; intros Hbody visited acc Hacc.
  - exists acc. split; [reflexivity | by rewrite app_nil_r].
  - destruct (Hbody i acc visited) as (a' & Hrun & Ha'); [left | done |].
    destruct (IH (fun j a pre Hj => Hbody j a pre (list_elem_of_further _ _ _ Hj))
                 (visited ++ [i]) a' Ha') as (acc' & Hrest & Hinv).
    exists acc'. split.
    + simpl. by rewrite (bind_run _ _ _ _ Hrun).
    + by rewrite <- app_assoc in Hinv.
Qed.

(** ** The two assembly loops

    The three methods share their loops: the first writes the diagonal
    entry of every interior site, the second the two entries between a
    site and the next one.  [dv] and [ov] are the values written. *)
Section Assembly.

Variable g : Grid.
Variable n : Z.
Variables dbody obody : Z -> dok -> method dok.
Variables dv ov : Z -> number Q.

Hypothesis dbody_run : forall site m,
  1 <= site < n - 1 -> dok_shape m = (n - 2, n - 2) ->
  dbody site m g =
    (g, inr (Dok (n - 2, n - 2)
               (<[(site - 1, site - 1) := dv site]> (dok_data m)))).

Hypothesis obody_run : forall site m,
  1 <= site < n - 2 -> dok_shape m = (n - 2, n - 2) ->
  obody site m g =
    (g, inr (Dok (n - 2, n - 2)
               (<[(site, site - 1) := ov site]>
                  (<[(site - 1, site) := ov site]> (dok_data m))))).

Lemma diagonal_loop (m0 : dok) :
  dok_shape m0 = (n - 2, n - 2) ->
  exists m1, for_each (range 1 (n - 1)) dbody m0 g = (g, inr m1) /\
    dok_shape m1 = (n - 2, n - 2) /\
    forall i j, dok_data m1 !! (i, j) =
      if decide (i = j /\ 0 <= i < n - 2) then Some (dv (i + 1))
      else dok_data m0 !! (i, j).
Proof.
  intros Hs.
  set (Inv := fun (visited : list Z) (m : dok) =>
    dok_shape m = (n - 2, n - 2) /\
    forall i j, dok_data m !! (i, j) =
      if decide (i = j /\ i + 1 ∈ visited) then Some (dv (i + 1))
      else dok_data m0 !! (i, j)).
  assert (Hstep : forall site m pre, site ∈ range 1 (n - 1) -> Inv pre m ->
            exists m', dbody site m g = (g, inr m') /\ Inv (pre ++ [site]) m').
  { intros site m pre Hsite [Hsm Hdm]. apply elem_of_range in Hsite.
    eexists. split; [apply dbody_run; [lia | done] |].
    split; [done |]. intros i j. simpl.
    rewrite lookup_insert, Hdm.
    destruct (decide ((site - 1, site - 1) = (i, j))) as [E|E].
    - simplify_eq. rewrite decide_True; [do 2 f_equal; lia |].
      split; [done |]. apply elem_of_app. right.
      apply list_elem_of_singleton. lia.
    - apply decide_ext. rewrite elem_of_app, list_elem_of_singleton.
      split; [tauto |]. intros [-> [H|H]]; [done |].
      exfalso. apply E. f_equal; lia. }
  assert (H0 : Inv [] m0).
  { split; [done |]. intros i j. rewrite decide_False; [done |].
    intros [_ H]. by apply elem_of_nil in H. }
  destruct (for_each_inv Inv dbody g _ Hstep [] m0 H0) as (m1 & Hrun & Hs1 & Hd1).
  exists m1. split; [done |]. split; [done |]. intros i j.
  rewrite Hd1. simpl. apply decide_ext. rewrite elem_of_range. lia.
Qed.

Lemma off_diagonal_loop (m0 : dok) :
  dok_shape m0 = (n - 2, n - 2) ->
  exists m1, for_each (range 1 (n - 2)) obody m0 g = (g, inr m1) /\
    dok_shape m1 = (n - 2, n - 2) /\
    forall i j, dok_data m1 !! (i, j) =
      if decide (i = j + 1 /\ 0 <= j < n - 3) then Some (ov (j + 1))
      else if decide (j = i + 1 /\ 0 <= i < n - 3) then Some (ov (i + 1))
      else dok_data m0 !! (i, j).
Proof.
  intros Hs.
  set (Inv := fun (visited : list Z) (m : dok) =>
    dok_shape m = (n - 2, n - 2) /\
    forall i j, dok_data m !! (i, j) =
      if decide (i = j + 1 /\ j + 1 ∈ visited) then Some (ov (j + 1))
      else if decide (j = i + 1 /\ i + 1 ∈ visited) then Some (ov (i + 1))
      else dok_data m0 !! (i, j)).
  assert (Hstep : forall site m pre, site ∈ range 1 (n - 2) -> Inv pre m ->
            exists m', obody site m g = (g, inr m') /\ Inv (pre ++ [site]) m').
  { intros site m pre Hsite [Hsm Hdm]. apply elem_of_range in Hsite.
    eexists. split; [apply obody_run; [lia | done] |].
    split; [done |]. intros i j. simpl.
    rewrite !lookup_insert, Hdm.
    destruct (decide ((site, site - 1) = (i, j))) as [E|E].
    { simplify_eq. rewrite decide_True; [do 2 f_equal; lia |].
      split; [lia |]. apply elem_of_app. right.
      apply list_elem_of_singleton. lia. }
    destruct (decide ((site - 1, site) = (i, j))) as [E'|E'].
    { simplify_eq. rewrite decide_False by lia.
      rewrite decide_True; [do 2 f_equal; lia |].
      split; [lia |]. apply elem_of_app. right.
      apply list_elem_of_singleton. lia. }
    rewrite (decide_ext (i = j + 1 /\ j + 1 ∈ pre ++ [site])
                        (i = j + 1 /\ j + 1 ∈ pre)).
    2: { rewrite elem_of_app, list_elem_of_singleton. split; [| tauto].
         intros [-> [H|H]]; [done |]. exfalso. apply E. f_equal; lia. }
    rewrite (decide_ext (j = i + 1 /\ i + 1 ∈ pre ++ [site])
                        (j = i + 1 /\ i + 1 ∈ pre)); [reflexivity |].
    rewrite elem_of_app, list_elem_of_singleton. split; [| tauto].
    intros [-> [H|H]]; [done |]. exfalso. apply E'. f_equal; lia. }
  assert (H0 : Inv [] m0).
  { split; [done |]. intros i j.
    rewrite !decide_False; [done | |]; intros [_ H]; by apply elem_of_nil in H. }
  destruct (for_each_inv Inv obody g _ Hstep [] m0 H0) as (m1 & Hrun & Hs1 & Hd1).
  exists m1. split; [done |]. split; [done |]. intros i j.
  rewrite Hd1. simpl.
  rewrite (decide_ext (i = j + 1 /\ j + 1 ∈ range 1 (n - 2))
                      (i = j + 1 /\ 0 <= j < n - 3))
    by (rewrite elem_of_range; lia).
  rewrite (decide_ext (j = i + 1 /\ i + 1 ∈ range 1 (n - 2))
                      (j = i + 1 /\ 0 <= i < n - 3))
    by (rewrite elem_of_range; lia).
  reflexivity.
Qed.

Lemma assembly (fmt : sparse_format) :
  2 <= n ->
  exists D,
    (matrice <- lift (dok_matrix (n - 2, n - 2)) ;;
     matrice <- for_each (range 1 (n - 1)) dbody matrice ;;
     matrice <- for_each (range 1 (n - 2)) obody matrice ;;
     ret (SpMatrix fmt (dok_shape matrice) (dok_data matrice))) g
    = (g, inr (SpMatrix fmt (n - 2, n - 2) D)) /\
    forall i j, D !! (i, j) = assembled n dv ov i j.
Proof.
  intros Hn.
  destruct (diagonal_loop (Dok (n - 2, n - 2) ∅) eq_refl) as (m1 & Hrun1 & Hs1 & Hd1).
  destruct (off_diagonal_loop m1 Hs1) as (m2 & Hrun2 & Hs2 & Hd2).
  exists (dok_data m2). split.
  - rewrite (bind_run _ _ g (Dok (n - 2, n - 2) ∅))
      by (unfold lift; rewrite dok_matrix_ok by lia; reflexivity).
    rewrite (bind_run _ _ _ _ Hrun1), (bind_run _ _ _ _ Hrun2).
    unfold ret. by rewrite Hs2.
  - intros i j. rewrite Hd2, Hd1. unfold assembled. simpl.
    by rewrite lookup_empty.
Qed.

End Assembly.

Lemma assembled_interior (fmt : sparse_format) (n : Z) (dv ov : Z -> number Q)
    (D : gmap (Z * Z) (number Q)) :
  (forall i j, D !! (i, j) = assembled n dv ov i j) ->
  interior_matrix n dv ov (SpMatrix fmt (n - 2, n - 2) D).
Proof.
  intros HD. split; [reflexivity |].
  assert (He : forall i j, entry (SpMatrix fmt (n - 2, n - 2) D) i j
                           = default (Fin 0%Q) (assembled n dv ov i j)).
  { intros i j. unfold entry. simpl. by rewrite HD. }
  repeat split.
  - intros site Hs. rewrite He. unfold assembled.
    rewrite !decide_False by lia. rewrite decide_True by lia.
    simpl. f_equal. lia.
  - rewrite He. unfold assembled.
    rewrite decide_False by lia. rewrite decide_True by lia.
    simpl. f_equal. lia.
  - rewrite He. unfold assembled. rewrite decide_True by lia.
    simpl. f_equal. lia.
  - intros i j. rewrite !He. unfold assembled.
    repeat case_decide; try reflexivity;
      try (destruct_and?; subst; reflexivity); exfalso; lia.
  - intros i j Hij. rewrite He. unfold assembled.
    rewrite !decide_False by lia. reflexivity.
Qed.

(** ** The three methods on a grid of at least two points *)

Ltac read_point :=
  match goal with
  | |- bind (point ?i) _ ?g = _ =>
      rewrite (bind_run _ _ _ _ (point_item g i ltac:(lia)))
  | |- bind self_points _ ?g = _ =>
      rewrite (bind_run self_points _ g (points g) eq_refl)
  end.

Ltac write_entry n :=
  match goal with
  | |- bind (lift (dok_setitem ?m (?i, ?j) ?v)) _ ?g = _ =>
      rewrite (bind_run _ _ g (Dok (n - 2, n - 2) (<[(i, j) := v]> (dok_data m))))
        by (unfold lift; rewrite (dok_setitem_ok m (n - 2) (n - 2)) by (done || lia);
            reflexivity)
  | |- lift (dok_setitem ?m (?i, ?j) ?v) ?g = _ =>
      unfold lift; rewrite (dok_setitem_ok m (n - 2) (n - 2)) by (done || lia);
      reflexivity
  end.

(** Runs the two loops of the method in the goal, given the values they
    write and the format of the returned matrix. *)
Ltac run_loops g n dv ov fmt D Hrun HD :=
  match goal with
  | |- context [for_each (range 1 (n - 1)) ?d _] =>
    match goal with
    | |- context [for_each (range 1 (n - 2)) ?o _] =>
      destruct (assembly g n d o dv ov) with fmt as (D & Hrun & HD)
    end
  end.

Section Methods.

Variable g : Grid.
Let pts := points g.
Let n := Z.of_nat (length pts).
Let x (i : Z) : Q := item pts i.

Hypothesis two_points : 2 <= n.

Lemma matrice_masse_interne_run :
  exists M, matrice_masse_interne g = (g, inr M) /\
    sp_format M = CSC /\
    interior_matrix n
      (fun site => Fin ((x (site + 1) - x (site - 1)) / 3)%Q)
      (fun site => Fin ((x (site + 1) - x site) / 6)%Q) M.
Proof.
  unfold matrice_masse_interne.
  rewrite (bind_run _ _ _ _ (Grid_len_run g)). fold pts n.
  run_loops g n
      (fun site => Fin ((x (site + 1) - x (site - 1)) / 3)%Q)
      (fun site => Fin ((x (site + 1) - x site) / 6)%Q)
    CSC D Hrun HD.
  - intros site m Hsite Hm. subst n pts.
    repeat read_point. write_entry (Z.of_nat (length (points g))).
  - intros site m Hsite Hm. subst n pts.
    repeat read_point. cbv zeta.
    write_entry (Z.of_nat (length (points g))).
    write_entry (Z.of_nat (length (points g))).
  - exact two_points.
  - exists (SpMatrix CSC (n - 2, n - 2) D).
    split; [exact Hrun |]. split; [reflexivity |].
    by apply assembled_interior.
Qed.

Lemma matrice_laplacienne_interne_run :
  exists M, matrice_laplacienne_interne g = (g, inr M) /\
    sp_format M = CSC /\
    interior_matrix n
      (fun site => fsum [fdiv 1 (x (site - 1) - x site);
                         fdiv 1 (x site - x (site + 1))])
      (fun site => fdiv 1 (x (site + 1) - x site)) M.
Proof.
  unfold matrice_laplacienne_interne.
  rewrite (bind_run _ _ _ _ (Grid_len_run g)). fold pts n.
  run_loops g n
      (fun site => fsum [fdiv 1 (x (site - 1) - x site);
                         fdiv 1 (x site - x (site + 1))])
      (fun site => fdiv 1 (x (site + 1) - x site))
    CSC D Hrun HD.
  - intros site m Hsite Hm. subst n pts. cbn [map_each].
    repeat (rewrite bind_assoc || rewrite bind_ret || read_point).
    replace (site - 1 + 1) with site by lia.
    write_entry (Z.of_nat (length (points g))).
  - intros site m Hsite Hm. subst n pts.
    repeat read_point. cbv zeta.
    write_entry (Z.of_nat (length (points g))).
    write_entry (Z.of_nat (length (points g))).
  - exact two_points.
  - exists (SpMatrix CSC (n - 2, n - 2) D).
    split; [exact Hrun |]. split; [reflexivity |].
    by apply assembled_interior.
Qed.

Variable quad : (Q -> number Q) -> Q -> Q -> number Q.
Variable potentiel : Q -> number Q.

Lemma matrice_potentiel_run :
  exists M, matrice_potentiel quad potentiel g = (g, inr M) /\
    sp_format M = CSR /\
    interior_matrix n
      (fun site =>
         fadd (quad (fun t => fmul (potentiel t) (fsquare (pente_pos pts t site)))
                    (x (site - 1)) (x site))
              (quad (fun t => fmul (potentiel t) (fsquare (pente_neg pts t site)))
                    (x site) (x (site + 1))))
      (fun site =>
         quad (fun t => fmul (fmul (potentiel t) (pente_pos pts t (site + 1)))
                             (pente_neg pts t site))
              (x site) (x (site + 1))) M.
Proof.
  unfold matrice_potentiel.
  rewrite (bind_run _ _ _ _ (Grid_len_run g)). fold pts n.
  run_loops g n
      (fun site =>
         fadd (quad (fun t => fmul (potentiel t) (fsquare (pente_pos pts t site)))
                    (x (site - 1)) (x site))
              (quad (fun t => fmul (potentiel t) (fsquare (pente_neg pts t site)))
                    (x site) (x (site + 1))))
      (fun site =>
         quad (fun t => fmul (fmul (potentiel t) (pente_pos pts t (site + 1)))
                             (pente_neg pts t site))
              (x site) (x (site + 1)))
    CSR D Hrun HD.
  - intros site m Hsite Hm. subst n pts.
    repeat read_point. cbv zeta.
    write_entry (Z.of_nat (length (points g))).
  - intros site m Hsite Hm. subst n pts.
    repeat read_point. cbv zeta.
    write_entry (Z.of_nat (length (points g))).
    write_entry (Z.of_nat (length (points g))).
  - exact two_points.
  - exists (SpMatrix CSR (n - 2, n - 2) D).
    split; [exact Hrun |]. split; [reflexivity |].
    by apply assembled_interior.
Qed.

End Methods.

Lemma strictly_increasing_non_decreasing (pts : list Q) :
  strictly_increasing pts -> non_decreasing pts.
Proof. intros H i a b Ha Hb. apply Qlt_le_weak. eauto. Qed.

Lemma adjacent_item (R : Q -> Q -> Prop) (pts : list Q) (i : Z) :
  adjacent R pts -> 0 <= i -> i + 1 < Z.of_nat (length pts) ->
  R (item pts i) (item pts (i + 1)).
Proof.
  intros HR Hi Hn. apply (HR (Z.to_nat i)).
  - apply lookup_item. lia.
  - replace (S (Z.to_nat i)) with (Z.to_nat (i + 1)) by lia.
    apply lookup_item. lia.
Qed.

Lemma fdiv_finite (a d : Q) : ~ (d == 0)%Q -> fdiv a d = Fin (a / d)%Q.
Proof.
  intros Hd. unfold fdiv. destruct (Qeq_bool d 0) eqn:E; [| reflexivity].
  by apply Qeq_bool_iff in E.
Qed.

Lemma fdiv_zero (a d : Q) : (d == 0)%Q -> fdiv a d = NonFinite.
Proof. intros Hd. unfold fdiv. apply Qeq_bool_iff in Hd. by rewrite Hd. Qed.

Lemma Qinv_negative (d : Q) : (d < 0)%Q -> (1 / d < 0)%Q.
Proof.
  intros Hd.
  assert (H : (0 < / (- d))%Q) by (apply Qinv_lt_0_compat; lra).
  assert (E : (1 / d == - / (- d))%Q) by (field; lra).
  rewrite E. lra.
Qed.

(** ** Claims about the grid and its matrices *)

(** C7, as the code has it: a sequence with a negative adjacent difference
    is refused, and the exception raised is a ValueError with the message
    "Points must be sorted."  (there is no OrderingError class); no grid is
    produced in that case.  Every non-decreasing sequence is accepted and
    becomes the points of the grid. *)
Theorem Grid_init_spec :
  (forall pts, has_negative_difference pts ->
     Grid_init pts = inl (ValueError "Points must be sorted.")) /\
  (forall pts, non_decreasing pts ->
     Grid_init pts = inr {| points := pts |}).
Proof.
  split; [| exact Grid_init_sorted].
  intros pts H. unfold Grid_init.
  apply existsb_negative in H. by rewrite H.
Qed.

Lemma Grid_init_spec_witness :
  (has_negative_difference [1; 0]%Q /\
   Grid_init [1; 0]%Q = inl (ValueError "Points must be sorted.")) /\
  (non_decreasing [0; 0; 1]%Q /\
   Grid_init [0; 0; 1]%Q = inr {| points := [0; 0; 1]%Q |}).
Proof.
  assert (Hneg : has_negative_difference [1; 0]%Q).
  { exists 0%nat, 1%Q, 0%Q. repeat split. }
  assert (Hsorted : non_decreasing [0; 0; 1]%Q).
  { intros [|[|[|i]]] a b Ha Hb; simplify_eq/=; lra. }
  split; split; [exact Hneg | | exact Hsorted |].
  - exact (proj1 Grid_init_spec _ Hneg).
  - exact (proj2 Grid_init_spec _ Hsorted).
Defined.

(** C7, as stated, fails: [1, 0] has a negative adjacent difference, and
    the exception that construction raises is not an OrderingError. *)
Lemma Grid_init_not_OrderingError :
  has_negative_difference [1; 0]%Q /\
  ~ (exists e, Grid_init [1; 0]%Q = inl e /\ exc_class e = "OrderingError"%string).
Proof.
  split.
  - exists 0%nat, 1%Q, 0%Q. repeat split.
  - intros (e & He & Hc). vm_compute in He. by simplify_eq.
Qed.

(** C1: on a strictly increasing grid of [n >= 3] points
    [matrice_masse_interne] returns a symmetric tridiagonal matrix of shape
    [(n-2, n-2)]; output index [site - 1] is the interior point [site], the
    diagonal entry of [site] is [(x_{site+1} - x_{site-1}) / 3] and the
    entries between [site] and [site + 1] are [(x_{site+1} - x_site) / 6].
    For the points [0, 1, 2, 3, 4] the matrix is
    [[2/3, 1/6, 0], [1/6, 2/3, 1/6], [0, 1/6, 2/3]]. *)
Theorem matrice_masse_interne_spec :
  (forall pts : list Q,
     let n := Z.of_nat (length pts) in
     strictly_increasing pts -> 3 <= n ->
     exists g M,
       Grid_init pts = inr g /\ points g = pts /\
       matrice_masse_interne g = (g, inr M) /\
       interior_matrix n
         (fun site => Fin ((item pts (site + 1) - item pts (site - 1)) / 3)%Q)
         (fun site => Fin ((item pts (site + 1) - item pts site) / 6)%Q) M) /\
  (exists g M,
     Grid_init [0; 1; 2; 3; 4]%Q = inr g /\
     matrice_masse_interne g = (g, inr M) /\
     toarray M = [ [Fin (2 # 3); Fin (1 # 6); Fin 0%Q];
                   [Fin (1 # 6); Fin (2 # 3); Fin (1 # 6)];
                   [Fin 0%Q; Fin (1 # 6); Fin (2 # 3)] ]).
Proof.
  split.
  - intros pts n Hinc Hn. exists {| points := pts |}.
    destruct (matrice_masse_interne_run {| points := pts |})
      as (M & Hrun & _ & HM); [simpl; lia |].
    exists M. split; [| done].
    by apply Grid_init_sorted, strictly_increasing_non_decreasing.
  - eexists. eexists. split; [reflexivity |].
    split; [vm_compute; reflexivity |]. vm_compute. reflexivity.
Qed.

Lemma matrice_masse_interne_spec_witness :
  strictly_increasing [0; 1; 3]%Q /\
  exists g M,
    Grid_init [0; 1; 3]%Q = inr g /\ points g = [0; 1; 3]%Q /\
    matrice_masse_interne g = (g, inr M) /\
    interior_matrix 3
      (fun site => Fin ((item [0; 1; 3]%Q (site + 1)
                         - item [0; 1; 3]%Q (site - 1)) / 3)%Q)
      (fun site => Fin ((item [0; 1; 3]%Q (site + 1)
                         - item [0; 1; 3]%Q site) / 6)%Q) M.
Proof.
  assert (Hinc : strictly_increasing [0; 1; 3]%Q).
  { intros [|[|[|i]]] a b Ha Hb; simplify_eq/=; lra. }
  split; [exact Hinc |].
  apply (proj1 matrice_masse_interne_spec [0; 1; 3]%Q Hinc). simpl. lia.
Defined.

Lemma increasing_step (pts : list Q) (i : Z) :
  strictly_increasing pts -> 1 <= i < Z.of_nat (length pts) ->
  (item pts (i - 1) < item pts i)%Q.
Proof.
  intros Hinc Hi.
  pose proof (adjacent_item Qlt pts (i - 1) Hinc) as H.
  replace (i - 1 + 1) with i in H by lia. apply H; lia.
Qed.

(** C2: on a strictly increasing grid of [n >= 3] points
    [matrice_laplacienne_interne] returns a symmetric tridiagonal matrix of
    shape [(n-2, n-2)]; the diagonal entry of the interior point [site] is
    [1/(x_{site-1} - x_site) + 1/(x_site - x_{site+1})] and is strictly
    negative, the entries between [site] and [site + 1] are
    [1/(x_{site+1} - x_site)].  For the points [0, 1, 2, 3, 4] the matrix
    is [[-2, 1, 0], [1, -2, 1], [0, 1, -2]]. *)
Theorem matrice_laplacienne_interne_spec :
  (forall pts : list Q,
     let n := Z.of_nat (length pts) in
     strictly_increasing pts -> 3 <= n ->
     exists g M,
       Grid_init pts = inr g /\ points g = pts /\
       matrice_laplacienne_interne g = (g, inr M) /\
       sp_shape M = (n - 2, n - 2) /\ symmetric M /\ tridiagonal M /\
       (forall site, 1 <= site <= n - 2 ->
          exists d, entry M (site - 1) (site - 1) = Fin d /\
            (d == 1 / (item pts (site - 1) - item pts site)
                  + 1 / (item pts site - item pts (site + 1)))%Q /\
            (d < 0)%Q) /\
       (forall site, 1 <= site <= n - 3 ->
          entry M (site - 1) site
            = Fin (1 / (item pts (site + 1) - item pts site))%Q /\
          entry M site (site - 1)
            = Fin (1 / (item pts (site + 1) - item pts site))%Q)) /\
  (exists g M,
     Grid_init [0; 1; 2; 3; 4]%Q = inr g /\
     matrice_laplacienne_interne g = (g, inr M) /\
     toarray M = [ [Fin (-2)%Q; Fin 1%Q; Fin 0%Q];
                   [Fin 1%Q; Fin (-2)%Q; Fin 1%Q];
                   [Fin 0%Q; Fin 1%Q; Fin (-2)%Q] ]).
Proof.
  split.
  - intros pts n Hinc Hn. exists {| points := pts |}.
    destruct (matrice_laplacienne_interne_run {| points := pts |})
      as (M & Hrun & _ & Hshape & Hdiag & Hoff & Hsym & Htri); [simpl; lia |].
    simpl in *. fold n in Hshape, Hdiag, Hoff.
    exists M. split; [by apply Grid_init_sorted, strictly_increasing_non_decreasing |].
    do 5 (split; [done |]). split.
    + intros site Hsite. rewrite (Hdiag site Hsite).
      pose proof (increasing_step pts site Hinc ltac:(lia)) as H1.
      pose proof (increasing_step pts (site + 1) Hinc ltac:(lia)) as H2.
      replace (site + 1 - 1) with site in H2 by lia.
      rewrite !fdiv_finite by lra. eexists. split; [reflexivity |].
      pose proof (Qinv_negative (item pts (site - 1) - item pts site) ltac:(lra)).
      pose proof (Qinv_negative (item pts site - item pts (site + 1)) ltac:(lra)).
      split; [ring | lra].
    + intros site Hsite. destruct (Hoff site Hsite) as [-> ->].
      pose proof (increasing_step pts (site + 1) Hinc ltac:(lia)) as H2.
      replace (site + 1 - 1) with site in H2 by lia.
      by rewrite fdiv_finite by lra.
  - eexists. eexists. split; [reflexivity |].
    split; [vm_compute; reflexivity |]. vm_compute. reflexivity.
Qed.

Lemma matrice_laplacienne_interne_spec_witness :
  strictly_increasing [0; 1; 3]%Q /\
  exists g M,
    Grid_init [0; 1; 3]%Q = inr g /\
    matrice_laplacienne_interne g = (g, inr M) /\
    exists d, entry M 0 0 = Fin d /\ (d == - 3 # 2)%Q.
Proof.
  assert (Hinc : strictly_increasing [0; 1; 3]%Q).
  { intros [|[|[|i]]] a b Ha Hb; simplify_eq/=; lra. }
  split; [exact Hinc |].
  destruct (proj1 matrice_laplacienne_interne_spec [0; 1; 3]%Q Hinc)
    as (g & M & Hg & _ & Hrun & _ & _ & _ & Hdiag & _); [simpl; lia |].
  exists g, M. split; [exact Hg |]. split; [exact Hrun |].
  destruct (Hdiag 1) as (d & Hd & Heq & _); [simpl; lia |].
  exists d. split; [exact Hd |]. rewrite Heq. reflexivity.
Defined.

(** C10: construction accepts every non-decreasing sequence, equal
    adjacent points included: a sequence is refused exactly when one of its
    adjacent differences is negative.  On a non-decreasing grid of at least
    three points, an interior point [site] that equals one of its
    neighbours makes [matrice_laplacienne_interne] divide by zero: the
    quotient [1/(x_i - x_{i+1})] is not finite, nothing guards it, and the
    diagonal entry of [site] in the returned matrix is not finite. *)
Theorem laplacienne_repeated_point :
  forall pts : list Q,
    let n := Z.of_nat (length pts) in
    ((exists e, Grid_init pts = inl e) <-> has_negative_difference pts) /\
    (non_decreasing pts ->
     Grid_init pts = inr {| points := pts |} /\
     forall site, 3 <= n -> 1 <= site <= n - 2 ->
       (item pts (site - 1) == item pts site
        \/ item pts site == item pts (site + 1))%Q ->
       (is_finite (fdiv 1 (item pts (site - 1) - item pts site)) = false \/
        is_finite (fdiv 1 (item pts site - item pts (site + 1))) = false) /\
       exists M,
         matrice_laplacienne_interne {| points := pts |}
           = ({| points := pts |}, inr M) /\
         is_finite (entry M (site - 1) (site - 1)) = false).
Proof.
  intros pts n. split.
  { rewrite <- existsb_negative. unfold Grid_init.
    destruct (existsb _ (diffs pts)); split; try done; eauto.
    intros [e He]. discriminate. }
  intros Hsorted. split; [by apply Grid_init_sorted |].
  intros site Hn Hsite Heq.
  assert (Hdiv : fdiv 1 (item pts (site - 1) - item pts site) = NonFinite \/
                 fdiv 1 (item pts site - item pts (site + 1)) = NonFinite).
  { destruct Heq as [E|E]; [left | right]; apply fdiv_zero; lra. }
  split; [destruct Hdiv as [-> | ->]; auto |].
  destruct (matrice_laplacienne_interne_run {| points := pts |})
    as (M & Hrun & _ & _ & Hdiag & _); [simpl; lia |].
  exists M. split; [exact Hrun |]. simpl in Hdiag.
  rewrite (Hdiag site) by (fold n; lia). unfold fsum. simpl.
  destruct Hdiv as [-> | ->]; [reflexivity |].
  by destruct (fdiv 1 _).
Qed.

Lemma laplacienne_repeated_point_witness :
  non_decreasing [0; 1; 1; 3]%Q /\
  Grid_init [0; 1; 1; 3]%Q = inr {| points := [0; 1; 1; 3]%Q |} /\
  exists M,
    matrice_laplacienne_interne {| points := [0; 1; 1; 3]%Q |}
      = ({| points := [0; 1; 1; 3]%Q |}, inr M) /\
    is_finite (entry M 0 0) = false.
Proof.
  assert (Hsorted : non_decreasing [0; 1; 1; 3]%Q).
  { intros [|[|[|[|i]]]] a b Ha Hb; simplify_eq/=; lra. }
  split; [exact Hsorted |].
  destruct (proj2 (laplacienne_repeated_point [0; 1; 1; 3]%Q) Hsorted)
    as [Hinit Hlap].
  split; [exact Hinit |].
  destruct (Hlap 1) as [_ HM]; [simpl; lia | simpl; lia | right; reflexivity |].
  exact HM.
Defined.

Lemma feq_Fin_r (v : number Q) (q : Q) :
  feq v (Fin q) -> exists p, v = Fin p /\ (p == q)%Q.
Proof. destruct v as [p|]; [| done]. intros H. by exists p. Qed.

Lemma boole_accurate (eps : Q) : (0 <= eps)%Q -> quad_accurate eps boole.
Proof.
  intros Heps f c a b Hlen Hab Hf.
  destruct (feq_Fin_r _ _ (Hf a ltac:(lra))) as (q0 & E0 & H0).
  destruct (feq_Fin_r _ _ (Hf (a + (1 # 4) * (b - a))%Q ltac:(lra))) as (q1 & E1 & H1).
  destruct (feq_Fin_r _ _ (Hf (a + 2 * ((1 # 4) * (b - a)))%Q ltac:(lra))) as (q2 & E2 & H2).
  destruct (feq_Fin_r _ _ (Hf (a + 3 * ((1 # 4) * (b - a)))%Q ltac:(lra))) as (q3 & E3 & H3).
  destruct (feq_Fin_r _ _ (Hf b ltac:(lra))) as (q4 & E4 & H4).
  unfold boole. cbv zeta. rewrite E0, E1, E2, E3, E4. cbn [fmul fadd].
  eexists. split; [reflexivity |].
  match goal with
  | |- (Qabs ?e <= _)%Q => assert (Hz : (e == 0)%Q)
  end.
  { rewrite H0, H1, H2, H3, H4. clear - Hlen.
    destruct c as [|c0 [|c1 [|c2 [|c3 [|c4 [|c5 c]]]]]];
      [| | | | | | simpl in Hlen; lia];
      unfold integral, primitive; cbn [peval primitive_from];
      repeat match goal with
             | |- context [Pos.succ ?k] =>
                 let k' := eval vm_compute in (Pos.succ k) in
                 change (Pos.succ k) with k'
             end;
      field. }
  rewrite Hz. exact Heps.
Qed.

(** Evaluates the grid points and the zero tests of the divisions that
    occur in a goal about a concrete grid. *)
Ltac eval_items :=
  repeat match goal with
         | |- context [item ?pts ?i] =>
             let v := eval vm_compute in (item pts i) in
             change (item pts i) with v
         | |- context [Qeq_bool ?a ?b] =>
             let v := eval vm_compute in (Qeq_bool a b) in
             change (Qeq_bool a b) with v
         end.

Ltac eval_items_in H :=
  repeat match type of H with
         | context [item ?pts ?i] =>
             let v := eval vm_compute in (item pts i) in
             change (item pts i) with v in H
         end.

Ltac eval_integral_in H :=
  match type of H with
  | context [integral ?c ?a ?b] =>
      let v := eval vm_compute in (integral c a b) in
      change (integral c a b) with v in H
  end.

(** Replaces the first [quad] of [H] by its value [v], known within [eps]
    of the integral of the polynomial [c]. *)
Ltac integrate H Hacc c v Hv :=
  match type of H with
  | context [?quad ?f ?a ?b] =>
      match type of Hacc with quad_accurate _ quad => idtac end;
      destruct (Hacc f c a b) as (v & ?Heq & Hv);
      [ simpl; lia
      | lra
      | intros ? _; unfold pente_pos, pente_neg, fdiv; eval_items;
        cbn [fmul fsquare feq peval]; field
      | rewrite Heq in H; clear Heq; eval_integral_in Hv;
        apply Qabs_Qle_condition in Hv ]
  end.

(** C3: on a strictly increasing grid of [n >= 3] points and for every
    potential, [matrice_potentiel] returns a symmetric tridiagonal matrix
    of shape [(n-2, n-2)].  The diagonal entry of the interior point [site]
    is the quadrature of [potentiel(x) * pente_pos(x, site)^2] over
    [[x_{site-1}, x_site]] plus that of [potentiel(x) * pente_neg(x, site)^2]
    over [[x_site, x_{site+1}]]; the entries between [site] and [site + 1]
    are the quadrature of
    [potentiel(x) * pente_pos(x, site + 1) * pente_neg(x, site)] over
    [[x_site, x_{site+1}]].  For the points [0, 1, 2, 3, 4] and the
    potential [x^2], with a quadrature routine that is accurate to [1e-4]
    on polynomials, the matrix is within [1e-3] of
    [[0.733, 0.383, 0], [0.383, 2.733, 1.05], [0, 1.05, 6.067]]. *)
Theorem matrice_potentiel_spec :
  forall quad : (Q -> number Q) -> Q -> Q -> number Q,
  (forall (potentiel : Q -> number Q) (pts : list Q),
     let n := Z.of_nat (length pts) in
     strictly_increasing pts -> 3 <= n ->
     exists g M,
       Grid_init pts = inr g /\ points g = pts /\
       matrice_potentiel quad potentiel g = (g, inr M) /\
       interior_matrix n
         (fun site =>
            fadd (quad (fun t => fmul (potentiel t) (fsquare (pente_pos pts t site)))
                       (item pts (site - 1)) (item pts site))
                 (quad (fun t => fmul (potentiel t) (fsquare (pente_neg pts t site)))
                       (item pts site) (item pts (site + 1))))
         (fun site =>
            quad (fun t => fmul (fmul (potentiel t) (pente_pos pts t (site + 1)))
                                (pente_neg pts t site))
                 (item pts site) (item pts (site + 1))) M) /\
  (quad_accurate (1 # 10000) quad ->
   exists g M,
     Grid_init [0; 1; 2; 3; 4]%Q = inr g /\
     matrice_potentiel quad (fun t => Fin (t ^ 2)%Q) g = (g, inr M) /\
     allclose (1 # 1000) (toarray M)
       [ [733 # 1000; 383 # 1000; 0];
         [383 # 1000; 2733 # 1000; 105 # 100];
         [0; 105 # 100; 6067 # 1000] ]%Q).
Proof.
  intros quad. split.
  - intros potentiel pts n Hinc Hn. exists {| points := pts |}.
    destruct (matrice_potentiel_run {| points := pts |} ltac:(simpl; lia)
                quad potentiel) as (M & Hrun & _ & HM).
    exists M. split; [| done].
    by apply Grid_init_sorted, strictly_increasing_non_decreasing.
  - intros Hacc. exists {| points := [0; 1; 2; 3; 4]%Q |}.
    destruct (matrice_potentiel_run {| points := [0; 1; 2; 3; 4]%Q |}
                ltac:(simpl; lia) quad (fun t => Fin (t ^ 2)%Q))
      as (M & Hrun & _ & Hshape & Hdiag & Hoff & _ & Htri).
    exists M. split; [reflexivity |]. split; [exact Hrun |].
    cbn [points] in Hshape, Hdiag, Hoff.
    change (Z.of_nat (length [0; 1; 2; 3; 4]%Q) - 2) with 3 in Hshape.
    pose proof (Hdiag 1 ltac:(simpl; lia)) as D1.
    pose proof (Hdiag 2 ltac:(simpl; lia)) as D2.
    pose proof (Hdiag 3 ltac:(simpl; lia)) as D3.
    destruct (Hoff 1 ltac:(simpl; lia)) as [U1 L1].
    destruct (Hoff 2 ltac:(simpl; lia)) as [U2 L2].
    pose proof (Htri 0 2 ltac:(lia)) as Z02.
    pose proof (Htri 2 0 ltac:(lia)) as Z20.
    clear Hdiag Hoff Htri Hrun.
    change (1 - 1) with 0 in *. change (2 - 1) with 1 in *.
    change (3 - 1) with 2 in *. change (1 + 1) with 2 in *.
    change (2 + 1) with 3 in *.
    eval_items_in D1; eval_items_in D2; eval_items_in D3;
      eval_items_in U1; eval_items_in U2; eval_items_in L1; eval_items_in L2.
    integrate D1 Hacc [0; 0; 0; 0; 1]%Q p1 Hp1.
    integrate D1 Hacc [0; 0; 4; -4; 1]%Q n1 Hn1.
    integrate D2 Hacc [0; 0; 1; -2; 1]%Q p2 Hp2.
    integrate D2 Hacc [0; 0; 9; -6; 1]%Q n2 Hn2.
    integrate D3 Hacc [0; 0; 4; -4; 1]%Q p3 Hp3.
    integrate D3 Hacc [0; 0; 16; -8; 1]%Q n3 Hn3.
    integrate U1 Hacc [0; 0; -2; 3; -1]%Q u1 Hu1.
    integrate L1 Hacc [0; 0; -2; 3; -1]%Q l1 Hl1.
    integrate U2 Hacc [0; 0; -6; 5; -1]%Q u2 Hu2.
    integrate L2 Hacc [0; 0; -6; 5; -1]%Q l2 Hl2.
    unfold toarray. rewrite Hshape. change (seqZ 0 3) with [0; 1; 2].
    cbn [fmap list_fmap]. cbn [fadd] in D1, D2, D3.
    unfold allclose.
    repeat match goal with
           | |- Forall2 _ _ _ => constructor
           end;
      cbv beta; (eexists; split; [eassumption |]);
      apply Qabs_Qle_condition; lra.
Qed.

Lemma matrice_potentiel_spec_witness :
  (strictly_increasing [0; 1; 3]%Q /\
   exists g M,
     Grid_init [0; 1; 3]%Q = inr g /\
     matrice_potentiel boole (fun t => Fin (t ^ 2)%Q) g = (g, inr M) /\
     sp_shape M = (1, 1)) /\
  (quad_accurate (1 # 10000) boole /\
   exists g M,
     Grid_init [0; 1; 2; 3; 4]%Q = inr g /\
     matrice_potentiel boole (fun t => Fin (t ^ 2)%Q) g = (g, inr M) /\
     allclose (1 # 1000) (toarray M)
       [ [733 # 1000; 383 # 1000; 0];
         [383 # 1000; 2733 # 1000; 105 # 100];
         [0; 105 # 100; 6067 # 1000] ]%Q).
Proof.
  assert (Hinc : strictly_increasing [0; 1; 3]%Q).
  { intros [|[|[|i]]] a b Ha Hb; simplify_eq/=; lra. }
  assert (Hacc : quad_accurate (1 # 10000) boole) by (apply boole_accurate; lra).
  split; split; [exact Hinc | | exact Hacc |].
  - destruct (proj1 (matrice_potentiel_spec boole) (fun t => Fin (t ^ 2)%Q)
                [0; 1; 3]%Q Hinc) as (g & M & Hg & _ & Hrun & Hshape & _);
      [simpl; lia |].
    exists g, M. split; [exact Hg |]. split; [exact Hrun | exact Hshape].
  - exact (proj2 (matrice_potentiel_spec boole) Hacc).
Defined.

(** C4, on the code: [solve_shrodinger_using_fem] solves nothing.  For
    every potential, grid and number of states the body raises
    NotImplementedError; the decorator has read the performance counter
    once by then and prints nothing.  No eigenpair is returned when
    [n_states] fits the interior points (here 1 state on [0, 1, 2, 3, 4]),
    and the exception is not an InsufficientDimensionError when it does not
    (here 4 states). *)
Theorem solve_shrodinger_using_fem_raises :
  (forall (potential : Q -> number Q) (points : list Q) (n_states : Z)
          (w : Tools.world),
     solve_shrodinger_using_fem potential points n_states w
     = (Tools.World (Tools.readings w) (S (Tools.calls w)) (Tools.stdout w),
        inl (NotImplementedError "You need to implement this function."))) /\
  (forall w out,
     snd (solve_shrodinger_using_fem (fun x => Fin (x * x / 2)%Q)
            [0; 1; 2; 3; 4]%Q 1 w) <> inr out) /\
  (forall w, exists e,
     snd (solve_shrodinger_using_fem (fun x => Fin (x * x / 2)%Q)
            [0; 1; 2; 3; 4]%Q 4 w) = inl e /\
     exc_class e <> "InsufficientDimensionError"%string).
Proof.
  split; [reflexivity |]. split.
  - intros w out. discriminate.
  - intros w. eexists. split; [reflexivity | discriminate].
Qed.

(** C9: each of the three assembly methods leaves the points of the grid
    unchanged, and calling it again on the same grid (with the same
    potential) gives an identical result. *)
Theorem assembly_methods_repeatable :
  forall (quad : (Q -> number Q) -> Q -> Q -> number Q)
         (potentiel : Q -> number Q) (g : Grid),
    repeatable matrice_masse_interne g /\
    repeatable matrice_laplacienne_interne g /\
    repeatable (matrice_potentiel quad potentiel) g.
Proof.
  intros quad potentiel g.
  split; [| split]; apply keeps_self_repeatable.
  - apply keeps_matrice_masse_interne.
  - apply keeps_matrice_laplacienne_interne.
  - apply keeps_matrice_potentiel.
Qed.

(** ** More about the matrices *)

(** ** Sums over the columns *)

Lemma qsum_cons (q : Q) (l : list Q) : qsum (q :: l) = (q + qsum l)%Q.
Proof. reflexivity. Qed.

Lemma fold_left_fadd_Fin (l : list Q) (a : Q) :
  exists s, fold_left fadd (Fin <$> l) (Fin a) = Fin s /\ (s == a + qsum l)%Q.
Proof.
  revert a. induction l as [|q l IH]; intros a.
  - exists a. split; [reflexivity |]. unfold qsum. cbn [fold_right]. ring.
  - destruct (IH (a + q)%Q) as (s & Hs & Hq). exists s. split; [exact Hs |].
    rewrite Hq, qsum_cons. ring.
Qed.

Lemma fsum_Fin (l : list Q) :
  exists s, fsum (Fin <$> l) = Fin s /\ (s == qsum l)%Q.
Proof.
  destruct (fold_left_fadd_Fin l 0) as (s & Hs & Hq).
  exists s. split; [exact Hs |]. rewrite Hq. ring.
Qed.

Lemma qsum_app (l1 l2 : list Q) : (qsum (l1 ++ l2) == qsum l1 + qsum l2)%Q.
Proof.
  induction l1 as [|q l1 IH].
  - unfold qsum at 2. cbn [app fold_right]. ring.
  - cbn [app]. rewrite !qsum_cons, IH. ring.
Qed.

Lemma qsum_ext (F G : Z -> Q) (cols : list Z) :
  (forall j, j ∈ cols -> (F j == G j)%Q) ->
  (qsum (F <$> cols) == qsum (G <$> cols))%Q.
Proof.
  induction cols as [|j cols IH]; intros H; [reflexivity |].
  cbn [fmap list_fmap]. rewrite !qsum_cons.
  rewrite (H j) by left. rewrite IH; [reflexivity |].
  intros j' Hj'. apply H. by right.
Qed.

Lemma qsum_plus (F G : Z -> Q) (cols : list Z) :
  (qsum ((fun j => F j + G j)%Q <$> cols)
   == qsum (F <$> cols) + qsum (G <$> cols))%Q.
Proof.
  induction cols as [|j cols IH].
  - unfold qsum. cbn [fmap list_fmap fold_right]. ring.
  - cbn [fmap list_fmap]. rewrite !qsum_cons, IH. ring.
Qed.

Lemma qsum_spike (a : Z) (c : Q) (m : nat) :
  (qsum (spike a c <$> seqZ 0 (Z.of_nat m))
   == if decide (0 <= a < Z.of_nat m)%Z then c else 0)%Q.
Proof.
  induction m as [|m IH].
  - rewrite decide_False by lia. reflexivity.
  - rewrite seqZ_S, fmap_app, qsum_app, IH.
    cbn [fmap list_fmap]. rewrite qsum_cons. unfold qsum at 1. cbn [fold_right].
    unfold spike. repeat case_decide; try lia; ring.
Qed.

(** The sum of a row that vanishes away from the diagonal. *)
Lemma qsum_band (F : Z -> Q) (i : Z) (m : nat) :
  0 <= i < Z.of_nat m ->
  (forall j, 0 <= j < Z.of_nat m -> 1 < Z.abs (i - j) -> (F j == 0)%Q) ->
  (qsum (F <$> seqZ 0 (Z.of_nat m))
   == (if decide (1 <= i)%Z then F (i - 1)%Z else 0) + F i
      + (if decide (i + 1 < Z.of_nat m)%Z then F (i + 1)%Z else 0))%Q.
Proof.
  intros Hi Hzero.
  rewrite (qsum_ext F (fun j => Qplus (spike (i - 1) (F (i - 1)) j)
                                 (Qplus (spike i (F i) j)
                                        (spike (i + 1) (F (i + 1)) j)))).
  - rewrite !qsum_plus, !qsum_spike.
    repeat case_decide; try lia; ring.
  - intros j Hj. apply elem_of_seqZ in Hj. unfold spike.
    repeat case_decide; subst; try lia; try ring.
    rewrite Hzero by lia. ring.
Qed.

(** Inside the matrix, every entry is the one the loops wrote, or 0. *)
Lemma interior_entry (n : Z) (dv ov : Z -> number Q) (M : spmatrix) (i j : Z) :
  interior_matrix n dv ov M -> 0 <= i < n - 2 -> 0 <= j < n - 2 ->
  entry M i j = default (Fin 0%Q) (assembled n dv ov i j).
Proof.
  intros (_ & Hdiag & Hoff & _ & Htri) Hi Hj. unfold assembled.
  repeat case_decide; destruct_and?; subst; simpl.
  - destruct (Hoff (j + 1) ltac:(lia)) as [_ Hlow].
    by replace (j + 1 - 1) with j in Hlow by lia.
  - destruct (Hoff (i + 1) ltac:(lia)) as [Hup _].
    by replace (i + 1 - 1) with i in Hup by lia.
  - pose proof (Hdiag (j + 1) ltac:(lia)) as Hd.
    by replace (j + 1 - 1) with j in Hd by lia.
  - apply Htri. lia.
Qed.

Lemma interior_band (n : Z) (dv ov : Z -> number Q) (dq oq : Z -> Q)
    (M : spmatrix) (i j : Z) :
  interior_matrix n dv ov M ->
  (forall site, 1 <= site <= n - 2 -> dv site = Fin (dq site)) ->
  (forall site, 1 <= site <= n - 3 -> ov site = Fin (oq site)) ->
  0 <= i < n - 2 -> 0 <= j < n - 2 ->
  entry M i j = Fin (band n dq oq i j).
Proof.
  intros HM Hdv Hov Hi Hj. rewrite (interior_entry n dv ov M i j HM Hi Hj).
  unfold assembled, band.
  repeat case_decide; destruct_and?; subst; simpl;
    rewrite ?Hdv, ?Hov by lia; reflexivity.
Qed.

(** A row of a finite matrix of the grid, times a vector: at most three
    terms are left. *)
Lemma row_dot_band (n : Z) (dv ov : Z -> number Q) (dq oq : Z -> Q)
    (M : spmatrix) (i : Z) (v : Z -> Q) :
  interior_matrix n dv ov M ->
  (forall site, 1 <= site <= n - 2 -> dv site = Fin (dq site)) ->
  (forall site, 1 <= site <= n - 3 -> ov site = Fin (oq site)) ->
  0 <= i < n - 2 ->
  exists s, row_dot M i v = Fin s /\
    (s == (if decide (1 <= i)%Z then oq i * v (i - 1)%Z else 0)
          + dq (i + 1)%Z * v i
          + (if decide (i < n - 3)%Z then oq (i + 1)%Z * v (i + 1)%Z else 0))%Q.
Proof.
  intros HM Hdv Hov Hi.
  pose proof (proj1 HM) as Hshape.
  unfold row_dot. rewrite Hshape. cbn [snd].
  assert (Hm : exists m : nat, n - 2 = Z.of_nat m)
    by (exists (Z.to_nat (n - 2)); lia).
  destruct Hm as [m Hm]. rewrite Hm.
  set (F := fun j => (band n dq oq i j * v j)%Q).
  assert (E : (fun j => fmul (entry M i j) (Fin (v j))) <$> seqZ 0 (Z.of_nat m)
              = Fin <$> (F <$> seqZ 0 (Z.of_nat m))).
  { rewrite <- list_fmap_compose. apply list_fmap_ext.
    intros k j Hj. apply lookup_seqZ in Hj as [-> Hk]. simpl.
    rewrite (interior_band n dv ov dq oq M i _ HM Hdv Hov Hi) by lia.
    reflexivity. }
  rewrite E. destruct (fsum_Fin (F <$> seqZ 0 (Z.of_nat m))) as (s & Hs & Hq).
  exists s. split; [exact Hs |]. rewrite Hq.
  rewrite (qsum_band F i m) by
    (first [lia | intros j Hj Hij; unfold F, band;
                  rewrite !decide_False by lia; ring]).
  unfold F, band.
  repeat case_decide; destruct_and?; try lia;
    rewrite ?Z.sub_add, ?Z.add_simpl_r; try ring.
Qed.

Lemma five_points_increasing : strictly_increasing [0; 1; 3; 4; 7]%Q.
Proof. intros [|[|[|[|[|i]]]]] a b Ha Hb; simplify_eq/=; lra. Qed.

Lemma item_shift (pts : list Q) (i : Z) :
  item pts (i + 1 - 1) = item pts i /\ item pts (i + 1 + 1) = item pts (i + 2).
Proof. split; f_equal; lia. Qed.



Lemma Qdiv_2 (a : Q) : (a / 2 == a * (1 # 2))%Q.
Proof. field. Qed.

Lemma Qdiv_3 (a : Q) : (a / 3 == a * (1 # 3))%Q.
Proof. field. Qed.

Lemma Qdiv_6 (a : Q) : (a / 6 == a * (1 # 6))%Q.
Proof. field. Qed.

(** X9: on a strictly increasing grid the mass matrix has finite
    non-negative entries and a strictly dominant positive diagonal: in
    every row the diagonal entry exceeds the sum of the other entries. *)
Theorem masse_diagonally_dominant :
  forall pts : list Q,
    let n := Z.of_nat (length pts) in
    strictly_increasing pts -> 3 <= n ->
    exists g M,
      Grid_init pts = inr g /\ matrice_masse_interne g = (g, inr M) /\
      (forall i j, 0 <= i < n - 2 -> 0 <= j < n - 2 ->
         exists e, entry M i j = Fin e /\ (0 <= e)%Q) /\
      (forall i, 0 <= i < n - 2 ->
         exists d r, entry M i i = Fin d /\
           row_dot M i (fun _ => 1%Q) = Fin r /\
           (0 < d)%Q /\ (r - d < d)%Q).
Proof.
  intros pts n Hinc Hn. exists {| points := pts |}.
  destruct (matrice_masse_interne_run {| points := pts |})
    as (M & Hrun & _ & HM); [simpl; lia |].
  cbn [points] in HM. fold n in HM.
  set (dq := fun site => ((item pts (site + 1) - item pts (site - 1)) / 3)%Q).
  set (oq := fun site => ((item pts (site + 1) - item pts site) / 6)%Q).
  exists M.
  split; [by apply Grid_init_sorted, strictly_increasing_non_decreasing |].
  split; [exact Hrun |]. split.
  - intros i j Hi Hj. eexists. split.
    + apply (interior_band n _ _ dq oq M i j HM); done.
    + unfold band, dq, oq.
      repeat case_decide; destruct_and?; subst;
        rewrite ?Qdiv_3, ?Qdiv_6; try lra.
      * pose proof (increasing_step pts (j + 1 + 1) Hinc ltac:(lia)) as Hlt1.
        replace (j + 1 + 1 - 1) with (j + 1) in Hlt1 by lia. lra.
      * pose proof (increasing_step pts (i + 1 + 1) Hinc ltac:(lia)) as Hlt1.
        replace (i + 1 + 1 - 1) with (i + 1) in Hlt1 by lia. lra.
      * pose proof (increasing_step pts (j + 1 + 1) Hinc ltac:(lia)) as Hlt1.
        pose proof (increasing_step pts (j + 1) Hinc ltac:(lia)) as Hlt2.
        replace (j + 1 + 1 - 1) with (j + 1) in Hlt1 by lia. lra.
  - intros i Hi.
    destruct (row_dot_band n _ _ dq oq M i (fun _ => 1%Q) HM)
      as (r & Hr & Hq); [done | done | lia |].
    exists (dq (i + 1)), r. split; [| split; [exact Hr |]].
    + rewrite (interior_band n _ _ dq oq M i i HM) by done.
      unfold band. rewrite !decide_False by lia. by rewrite decide_True by lia.
    + pose proof (increasing_step pts (i + 1) Hinc ltac:(lia)) as Hlt1.
      pose proof (increasing_step pts (i + 2) Hinc ltac:(lia)) as Hlt2.
      replace (i + 1 - 1) with i in Hlt1 by lia.
      replace (i + 2 - 1) with (i + 1) in Hlt2 by lia.
      rewrite Hq. unfold dq, oq. destruct (item_shift pts i) as [-> ->].
      repeat case_decide; rewrite ?Qdiv_3, ?Qdiv_6; split; lra.
Qed.

Lemma masse_diagonally_dominant_witness :
  strictly_increasing [0; 1; 3; 4; 7]%Q /\
  exists g M,
    Grid_init [0; 1; 3; 4; 7]%Q = inr g /\
    matrice_masse_interne g = (g, inr M) /\
    exists d r, entry M 1 1 = Fin d /\
      row_dot M 1 (fun _ => 1%Q) = Fin r /\ (0 < d)%Q /\ (r - d < d)%Q.
Proof.
  split; [exact five_points_increasing |].
  destruct (masse_diagonally_dominant [0; 1; 3; 4; 7]%Q
              five_points_increasing ltac:(simpl; lia))
    as (g & M & Hg & Hrun & _ & Hrows).
  exists g, M. do 2 (split; [done |]).
  apply Hrows. simpl. lia.
Defined.



(** ** Uniform grids *)

Lemma uniform_increasing (pts : list Q) (h : Q) :
  (0 < h)%Q ->
  (forall i, 0 <= i < Z.of_nat (length pts) - 1 ->
     (item pts (i + 1) - item pts i == h)%Q) ->
  strictly_increasing pts.
Proof.
  intros Hh Huni i a b Ha Hb.
  apply lookup_lt_Some in Hb as Hlen.
  pose proof (Huni (Z.of_nat i) ltac:(lia)) as Hstep.
  rewrite (item_lookup pts (Z.of_nat i) a) in Hstep
    by (lia || by rewrite Nat2Z.id).
  rewrite (item_lookup pts (Z.of_nat i + 1) b) in Hstep
    by (lia || by replace (Z.to_nat (Z.of_nat i + 1)) with (S i) by lia).
  lra.
Qed.

(** X12: on a grid of constant spacing [h > 0] the mass matrix has [2h/3]
    on the diagonal and [h/6] next to it, the Laplacian matrix [-2/h] and
    [1/h]. *)
Theorem uniform_grid :
  forall (pts : list Q) (h : Q),
    let n := Z.of_nat (length pts) in
    (0 < h)%Q ->
    (forall i, 0 <= i < n - 1 -> (item pts (i + 1) - item pts i == h)%Q) ->
    3 <= n ->
    exists g M L,
      Grid_init pts = inr g /\
      matrice_masse_interne g = (g, inr M) /\
      matrice_laplacienne_interne g = (g, inr L) /\
      forall i j, 0 <= i < n - 2 -> 0 <= j < n - 2 ->
        feq (entry M i j)
            (Fin (if decide (i = j) then 2 * h / 3
                  else if decide (Z.abs (i - j) = 1)%Z then h / 6 else 0)%Q) /\
        feq (entry L i j)
            (Fin (if decide (i = j) then - 2 / h
                  else if decide (Z.abs (i - j) = 1)%Z then 1 / h else 0)%Q).
Proof.
  intros pts h n Hh Huni Hn.
  pose proof (uniform_increasing pts h Hh Huni) as Hinc.
  exists {| points := pts |}.
  destruct (matrice_masse_interne_run {| points := pts |})
    as (M & HrunM & _ & HM); [simpl; lia |].
  destruct (matrice_laplacienne_interne_run {| points := pts |})
    as (L & HrunL & _ & HL); [simpl; lia |].
  cbn [points] in HM, HL. fold n in HM, HL.
  exists M, L.
  split; [by apply Grid_init_sorted, strictly_increasing_non_decreasing |].
  split; [exact HrunM |]. split; [exact HrunL |].
  intros i j Hi Hj.
  assert (Hu : forall k, 0 <= k < n - 1 ->
            (item pts (k + 1) == item pts k + h)%Q).
  { intros k Hk. pose proof (Huni k Hk). lra. }
  rewrite (interior_entry n _ _ M i j HM Hi Hj).
  rewrite (interior_entry n _ _ L i j HL Hi Hj).
  unfold assembled.
  repeat case_decide; destruct_and?; subst; try lia;
    cbn [from_option Datatypes.id fsum fold_left feq];
    rewrite ?Z.add_simpl_r.
  - (* below the diagonal *)
    assert (E : (item pts (j + 1 + 1) - item pts (j + 1) == h)%Q)
      by (apply Huni; lia).
    rewrite (fdiv_finite 1) by lra. cbn [feq]. rewrite E. split; reflexivity.
  - (* above the diagonal *)
    assert (E : (item pts (i + 1 + 1) - item pts (i + 1) == h)%Q)
      by (apply Huni; lia).
    rewrite (fdiv_finite 1) by lra. cbn [feq]. rewrite E. split; reflexivity.
  - (* on the diagonal *)
    pose proof (Hu j ltac:(lia)) as E1. pose proof (Hu (j + 1) ltac:(lia)) as E2.
    assert (E3 : (item pts (j + 1 + 1) - item pts j == 2 * h)%Q) by lra.
    assert (E4 : (item pts j - item pts (j + 1) == - h)%Q) by lra.
    assert (E5 : (item pts (j + 1) - item pts (j + 1 + 1) == - h)%Q) by lra.
    rewrite !(fdiv_finite 1) by lra. cbn [fadd feq].
    rewrite E3, E4, E5. split; field. lra.
  - split; reflexivity.
Qed.

Lemma uniform_grid_witness :
  exists g M L,
    Grid_init [0; 1 # 2; 1; 3 # 2]%Q = inr g /\
    matrice_masse_interne g = (g, inr M) /\
    matrice_laplacienne_interne g = (g, inr L) /\
    feq (entry M 0 0) (Fin (2 * (1 # 2) / 3)%Q) /\
    feq (entry L 0 1) (Fin (1 / (1 # 2))%Q).
Proof.
  destruct (uniform_grid [0; 1 # 2; 1; 3 # 2]%Q (1 # 2))
    as (g & M & L & Hg & HM & HL & Hent).
  - reflexivity.
  - intros i Hi. simpl in Hi.
    assert (Hcases : i = 0 \/ i = 1 \/ i = 2) by lia.
    destruct Hcases as [-> | [-> | ->]]; reflexivity.
  - simpl. lia.
  - exists g, M, L. do 3 (split; [done |]).
    split.
    + exact (proj1 (Hent 0 0 ltac:(simpl; lia) ltac:(simpl; lia))).
    + exact (proj2 (Hent 0 1 ltac:(simpl; lia) ltac:(simpl; lia))).
Defined.

(** ** Change of coordinate *)







(** ** A constant potential *)

Lemma Qabs_zero (v w : Q) : (Qabs (v - w) <= 0)%Q -> (v == w)%Q.
Proof. intros H. apply Qabs_Qle_condition in H. lra. Qed.

Ltac eval_succ :=
  repeat match goal with
         | |- context [Pos.succ ?k] =>
             let k' := eval vm_compute in (Pos.succ k) in
             change (Pos.succ k) with k'
         end.

Section ExactQuad.

Variable quad : (Q -> number Q) -> Q -> Q -> number Q.
Hypothesis quad_exact : quad_accurate 0 quad.

Variables cst a b : Q.
Hypothesis a_lt_b : (a < b)%Q.

(** The integral of [cst * ramp^2] over the element. *)
Lemma quad_ramp_up :
  exists v, quad (fun t => fmul (Fin cst) (fsquare (fdiv (t - a) (b - a)))) a b
            = Fin v /\ (v == cst * ((b - a) / 3))%Q.
Proof.
  destruct (quad_exact
              (fun t => fmul (Fin cst) (fsquare (fdiv (t - a) (b - a))))
              [cst * a * a / ((b - a) * (b - a));
               - (2 * cst * a) / ((b - a) * (b - a));
               cst / ((b - a) * (b - a))]%Q a b) as (v & Hv & Hq).
  - simpl. lia.
  - lra.
  - intros t _. rewrite fdiv_finite by lra.
    cbn [fsquare fmul feq peval]. field. lra.
  - exists v. split; [exact Hv |]. apply Qabs_zero in Hq. rewrite Hq.
    unfold integral, primitive. cbn [peval primitive_from]. eval_succ.
    field. lra.
Qed.

Lemma quad_ramp_down :
  exists v, quad (fun t => fmul (Fin cst) (fsquare (fdiv (b - t) (b - a)))) a b
            = Fin v /\ (v == cst * ((b - a) / 3))%Q.
Proof.
  destruct (quad_exact
              (fun t => fmul (Fin cst) (fsquare (fdiv (b - t) (b - a))))
              [cst * b * b / ((b - a) * (b - a));
               - (2 * cst * b) / ((b - a) * (b - a));
               cst / ((b - a) * (b - a))]%Q a b) as (v & Hv & Hq).
  - simpl. lia.
  - lra.
  - intros t _. rewrite fdiv_finite by lra.
    cbn [fsquare fmul feq peval]. field. lra.
  - exists v. split; [exact Hv |]. apply Qabs_zero in Hq. rewrite Hq.
    unfold integral, primitive. cbn [peval primitive_from]. eval_succ.
    field. lra.
Qed.

Lemma quad_ramps :
  exists v, quad (fun t => fmul (fmul (Fin cst) (fdiv (t - a) (b - a)))
                                (fdiv (b - t) (b - a))) a b
            = Fin v /\ (v == cst * ((b - a) / 6))%Q.
Proof.
  destruct (quad_exact
              (fun t => fmul (fmul (Fin cst) (fdiv (t - a) (b - a)))
                             (fdiv (b - t) (b - a)))
              [- (cst * a * b) / ((b - a) * (b - a));
               cst * (a + b) / ((b - a) * (b - a));
               - cst / ((b - a) * (b - a))]%Q a b) as (v & Hv & Hq).
  - simpl. lia.
  - lra.
  - intros t _. rewrite !fdiv_finite by lra.
    cbn [fmul feq peval]. field. lra.
  - exists v. split; [exact Hv |]. apply Qabs_zero in Hq. rewrite Hq.
    unfold integral, primitive. cbn [peval primitive_from]. eval_succ.
    field. lra.
Qed.

End ExactQuad.

(** X14: for a constant potential [cst] and a quadrature routine that is
    exact on polynomials, every entry of the potential matrix is [cst]
    times the entry of the mass matrix. *)
Theorem potentiel_constant :
  forall (quad : (Q -> number Q) -> Q -> Q -> number Q) (cst : Q)
         (pts : list Q),
    let n := Z.of_nat (length pts) in
    quad_accurate 0 quad -> strictly_increasing pts -> 3 <= n ->
    exists g V M,
      Grid_init pts = inr g /\
      matrice_potentiel quad (fun _ => Fin cst) g = (g, inr V) /\
      matrice_masse_interne g = (g, inr M) /\
      forall i j, 0 <= i < n - 2 -> 0 <= j < n - 2 ->
        exists v m, entry V i j = Fin v /\ entry M i j = Fin m /\
                    (v == cst * m)%Q.
Proof.
  intros quad cst pts n Hquad Hinc Hn.
  exists {| points := pts |}.
  destruct (matrice_potentiel_run {| points := pts |} ltac:(simpl; lia)
              quad (fun _ => Fin cst)) as (V & HrunV & _ & HV).
  destruct (matrice_masse_interne_run {| points := pts |})
    as (M & HrunM & _ & HM); [simpl; lia |].
  cbn [points] in HV, HM. fold n in HV, HM.
  exists V, M.
  split; [by apply Grid_init_sorted, strictly_increasing_non_decreasing |].
  do 2 (split; [done |]).
  assert (Hstep : forall k, 1 <= k < n -> (item pts (k - 1) < item pts k)%Q)
    by (intros k Hk; by apply increasing_step).
  assert (Hoff : forall site, 1 <= site <= n - 3 ->
            exists v,
              quad (fun t => fmul (fmul (Fin cst) (pente_pos pts t (site + 1)))
                                  (pente_neg pts t site))
                   (item pts site) (item pts (site + 1)) = Fin v /\
              (v == cst * ((item pts (site + 1) - item pts site) / 6))%Q).
  { intros site Hs. unfold pente_pos, pente_neg. cbv zeta.
    replace (site + 1 - 1) with site by lia.
    apply quad_ramps; [done |].
    pose proof (Hstep (site + 1) ltac:(lia)) as Hlt.
    by replace (site + 1 - 1) with site in Hlt by lia. }
  intros i j Hi Hj.
  rewrite (interior_entry n _ _ V i j HV Hi Hj).
  rewrite (interior_entry n _ _ M i j HM Hi Hj).
  unfold assembled.
  repeat case_decide; destruct_and?; subst; try lia;
    cbn [from_option Datatypes.id].
  - destruct (Hoff (j + 1) ltac:(lia)) as (v & -> & Hv). eauto.
  - destruct (Hoff (i + 1) ltac:(lia)) as (v & -> & Hv). eauto.
  - unfold pente_pos, pente_neg. cbv zeta.
    pose proof (Hstep (j + 1) ltac:(lia)) as Hlt1.
    pose proof (Hstep (j + 1 + 1) ltac:(lia)) as Hlt2.
    replace (j + 1 + 1 - 1) with (j + 1) in Hlt2 by lia.
    destruct (quad_ramp_up quad Hquad cst _ _ Hlt1) as (v1 & -> & Hv1).
    destruct (quad_ramp_down quad Hquad cst _ _ Hlt2) as (v2 & -> & Hv2).
    cbn [fadd]. do 2 eexists. split; [reflexivity |]. split; [reflexivity |].
    rewrite Hv1, Hv2. field.
  - exists 0%Q, 0%Q. split; [reflexivity |]. split; [reflexivity | ring].
Qed.

Lemma potentiel_constant_witness :
  exists g V M,
    Grid_init [0; 1; 3; 4]%Q = inr g /\
    matrice_potentiel boole (fun _ => Fin 5%Q) g = (g, inr V) /\
    matrice_masse_interne g = (g, inr M) /\
    exists v m, entry V 0 1 = Fin v /\ entry M 0 1 = Fin m /\ (v == 5 * m)%Q.
Proof.
  assert (Hinc : strictly_increasing [0; 1; 3; 4]%Q).
  { intros [|[|[|[|i]]]] a b Ha Hb; simplify_eq/=; lra. }
  destruct (potentiel_constant boole 5 [0; 1; 3; 4]%Q
              (boole_accurate 0 ltac:(lra)) Hinc ltac:(simpl; lia))
    as (g & V & M & Hg & HV & HM & Hent).
  exists g, V, M. do 3 (split; [done |]).
  apply Hent; simpl; lia.
Defined.

End FemFacts.

Module ToolsQFacts.

Import Fem ToolsQ.

(** Two reference points are enough; what follows them is not read. *)
Lemma lin_extrapolate_run (x0 x1 y0 y1 : Q) (xs ys : list Q) (xf : Q) :
  lin_extrapolate (x0 :: x1 :: xs) (y0 :: y1 :: ys) xf
  = inr (fadd (Fin y0) (fmul (fdiv (y0 - y1) (x0 - x1)) (Fin (xf - x0)%Q))).
Proof.
  unfold lin_extrapolate.
  assert (Hx0 : ndarray_getitem (x0 :: x1 :: xs) 0 = inr x0)
    by (apply FemFacts.ndarray_getitem_lookup; [lia | reflexivity]).
  assert (Hx1 : ndarray_getitem (x0 :: x1 :: xs) 1 = inr x1)
    by (apply FemFacts.ndarray_getitem_lookup; [lia | reflexivity]).
  assert (Hy0 : ndarray_getitem (y0 :: y1 :: ys) 0 = inr y0)
    by (apply FemFacts.ndarray_getitem_lookup; [lia | reflexivity]).
  assert (Hy1 : ndarray_getitem (y0 :: y1 :: ys) 1 = inr y1)
    by (apply FemFacts.ndarray_getitem_lookup; [lia | reflexivity]).
  rewrite Hx0, Hx1, Hy0, Hy1. reflexivity.
Qed.

Lemma ndarray_getitem_short (a : list Q) (i : Z) :
  0 <= i -> Z.of_nat (length a) <= i -> ndarray_getitem a i = inl (IndexError "").
Proof.
  intros Hi Hlen. unfold ndarray_getitem.
  destruct (Z.ltb_spec i 0); [lia |].
  destruct (Z.ltb_spec i (Z.of_nat (length a))); [lia |].
  by rewrite andb_false_r.
Qed.



(** X3: [lin_extrapolate] does not guard its division: with equal
    abscissae it raises nothing and returns a non-finite value.  With fewer
    than two elements in [ys] or in [xs] it raises IndexError. *)
Theorem lin_extrapolate_degenerate :
  (forall x0 x1 y0 y1 xs ys xf, (x0 == x1)%Q ->
     lin_extrapolate (x0 :: x1 :: xs) (y0 :: y1 :: ys) xf = inr NonFinite) /\
  (forall xs ys xf, (length ys < 2)%nat \/ (length xs < 2)%nat ->
     exists e, lin_extrapolate xs ys xf = inl e /\ exc_class e = "IndexError"%string).
Proof.
  split.
  - intros x0 x1 y0 y1 xs ys xf Hx. rewrite lin_extrapolate_run.
    rewrite FemFacts.fdiv_zero by lra. reflexivity.
  - intros xs ys xf Hlen. exists (IndexError ""). split; [| reflexivity].
    unfold lin_extrapolate.
    destruct ys as [|y0 [|y1 ys]]; [reflexivity | reflexivity |].
    destruct Hlen as [Hlen | Hlen]; [simpl in Hlen; lia |].
    rewrite (FemFacts.ndarray_getitem_lookup (y0 :: y1 :: ys) 0 y0) by (lia || reflexivity).
    rewrite (FemFacts.ndarray_getitem_lookup (y0 :: y1 :: ys) 1 y1) by (lia || reflexivity).
    destruct xs as [|x0 [|x1 xs]]; [reflexivity | reflexivity | simpl in Hlen; lia].
Qed.

Lemma lin_extrapolate_degenerate_witness :
  lin_extrapolate [1; 1]%Q [2; 6]%Q 5%Q = inr NonFinite /\
  exists e, lin_extrapolate [1]%Q [2; 6]%Q 5%Q = inl e /\
            exc_class e = "IndexError"%string.
Proof.
  split.
  - apply (proj1 lin_extrapolate_degenerate). reflexivity.
  - apply (proj2 lin_extrapolate_degenerate). right. simpl. lia.
Defined.


End ToolsQFacts.

Module ShootingFacts.

Import Shooting.

(** C5, on the code: [schrodinger] returns no derivative.  For every state
    pair, position, potential and energy it raises NotImplementedError
    after unpacking the state; for the state [(1, 0)] at [x = 0] with
    [V(x) = x^2 / 2] and [E = 1/2] the expected pair [(0, -1)] is not
    returned. *)
Theorem schrodinger_raises :
  (forall (state : Q * Q) (x : Q) (potential : Q -> Q) (energy : Q),
     schrodinger state x potential energy
     = inl (NotImplementedError "This function is not implemented yet.")) /\
  schrodinger (1, 0)%Q 0%Q (fun x => x * x / 2)%Q (1 # 2)%Q
    <> inr (0, 2 * (0 * 0 / 2 - (1 # 2)) * 1)%Q.
Proof.
  split; [| discriminate].
  intros [psi dpsi] x potential energy. reflexivity.
Qed.

End ShootingFacts.
